(** * vue-flow core: graph utilities

    A shallow embedding of [packages/core/src/utils/graph.ts] (edge ids,
    edge dedup, the legacy [addEdge]/[updateEdge] protocol, the node and
    edge normalizer, reachability queries, ancestor selection and the
    rectangle selection test), together with the properties the
    specification states about them. *)

From stdpp Require Import gmap strings list fin_maps pretty.
From Stdlib Require Import ZArith QArith Qminmax Qround Lia Lqa.

#[local] Set Warnings "-register-all".
#[local] Close Scope Q_scope.
#[local] Open Scope string_scope.

(** ** JavaScript values

    Elements are plain JavaScript objects whose properties are read,
    tested for presence (['id' in element]) and overlaid
    ([Object.assign], spread).  An object is a finite map from property
    names to values; reading a missing property gives [undefined].
    Numbers are the integer-valued ones, which is what identifiers
    supplied as numbers are; their string form is the decimal numeral
    (the form of every integer below 10^21 in absolute value). *)

Inductive value : Type :=
  | VUndef
  | VNull
  | VBool (b : bool)
  | VNum (n : Z)
  | VStr (s : string)
  | VArr (l : list value)
  | VObj (o : gmap string value).

Abbreviation obj := (gmap string value).

(** [o.k] *)
Definition get (o : obj) (k : string) : value := default VUndef (o !! k).

(** ['k' in o] *)
Definition has (o : obj) (k : string) : bool := bool_decide (is_Some (o !! k)).

(** ToBoolean, as applied by [!v], [v && _] and [v || _]. *)
Definition truthy (v : value) : bool :=
  match v with
  | VUndef | VNull => false
  | VBool b => b
  | VNum n => negb (n =? 0)%Z
  | VStr s => negb (String.eqb s "")
  | VArr _ | VObj _ => true
  end.

(** [v === undefined || v === null], the test behind [??] and [?.]. *)
Definition nullish (v : value) : bool :=
  match v with VUndef | VNull => true | _ => false end.

(** [a ?? b] *)
Definition coalesce (a b : value) : value := if nullish a then b else a.
Infix "??" := coalesce (at level 45, left associativity).

Definition is_prim (v : value) : bool :=
  match v with VArr _ | VObj _ => false | _ => true end.

(** [a === b].  Primitives compare by value.  Objects and arrays compare
    by reference, which this embedding does not track; identifiers and
    handles are primitives, and the comparison of two object operands
    is answered [false]. *)
Definition strict_eq (a b : value) : bool :=
  match a, b with
  | VUndef, VUndef | VNull, VNull => true
  | VBool x, VBool y => bool_decide (x = y)
  | VNum x, VNum y => (x =? y)%Z
  | VStr x, VStr y => String.eqb x y
  | _, _ => false
  end.

Fixpoint join_comma (l : list string) : string :=
  match l with
  | [] => ""
  | [s] => s
  | s :: r => s +:+ "," +:+ join_comma r
  end.

(** ToString, as applied by a template literal [`${v}`]. *)
Fixpoint template (v : value) : string :=
  match v with
  | VUndef => "undefined"
  | VNull => "null"
  | VBool true => "true"
  | VBool false => "false"
  | VNum n => pretty n
  | VStr s => s
  | VArr l =>
      join_comma
        (map (fun x => match x with VUndef | VNull => "" | _ => template x end) l)
  | VObj _ => "[object Object]"
  end.

(** [v.toString()]: a TypeError ([None]) on [undefined] and [null]. *)
Definition toString (v : value) : option string :=
  if nullish v then None else Some (template v).

(** [v?.toString()] *)
Definition opt_toString (v : value) : value :=
  if nullish v then VUndef else VStr (template v).

(** [Object.assign(target, s1, s2)]: later sources win. *)
Definition assign (target s1 s2 : obj) : obj := s2 ∪ (s1 ∪ target).

(** ** Connections *)

(** The [Connection] type: two node identifiers and two optional handle
    identifiers ([sourceHandle?: string | null]). *)
Record Connection : Type := mkConnection {
  c_source : string;
  c_target : string;
  c_sourceHandle : option string;
  c_targetHandle : option string;
}.

Definition opt_field (k : string) (v : option string) : obj :=
  match v with Some s => {[ k := VStr s ]} | None => ∅ end.

(** The object a [Connection] is at run time; an absent handle is an
    absent property. *)
Definition connection_obj (c : Connection) : obj :=
  opt_field "targetHandle" (c_targetHandle c) ∪
  opt_field "sourceHandle" (c_sourceHandle c) ∪
  {[ "source" := VStr (c_source c); "target" := VStr (c_target c) ]}.

Definition getEdgeId (c : obj) : string :=
  "vueflow__edge-" +:+ template (get c "source")
    +:+ template (get c "sourceHandle" ?? VStr "")
    +:+ "-" +:+ template (get c "target")
    +:+ template (get c "targetHandle" ?? VStr "").

(** The text [getEdgeId] puts after its prefix. *)
Definition edge_key (c : Connection) : string :=
  c_source c +:+ default "" (c_sourceHandle c) +:+ "-"
    +:+ c_target c +:+ default "" (c_targetHandle c).

(** ** Helpers imported from outside the file *)

(** Modelled from the spec: [isDef] is imported from the utils index,
    whose body is not among the sources; it tells a defined value from
    [undefined]. *)
Definition isDef (v : value) : bool :=
  match v with VUndef => false | _ => true end.

(** Modelled from the spec: [markRaw] is imported from vue; it returns
    its argument, which it only exempts from reactivity. *)
Definition markRaw (v : value) : value := v.

(** The caller's [elements] array, which [addEdge] and [updateEdge]
    mutate in place, and the warning channel. *)
Record world : Type := World {
  elements : list obj;
  warnings : list string;
}.

(** Modelled from the spec: [warn] is imported from the utils index,
    whose body is not among the sources; it reports on the warning
    channel, a log the message is appended to. *)
Definition warn (message : string) (w : world) : world :=
  World (elements w) (warnings w ++ [message]).

(** What a mutation returns: the array it was given (the same object,
    whatever it now holds) or an array it built. *)
Inductive array_ref : Type :=
  | InputArray
  | FreshArray (l : list obj).

Definition contents (w : world) (r : array_ref) : list obj :=
  match r with InputArray => elements w | FreshArray l => l end.

(** ** Element guards *)

(** [isEdge] on an element that is an object (the [element &&
    typeof element === 'object'] part holds of every [obj]). *)
Definition isEdge (element : obj) : bool :=
  has element "id" && has element "source" && has element "target".

Definition isNode (element : obj) : bool :=
  has element "id" && has element "position" && negb (isEdge element).

(** ** Graph normalizer *)

Definition get_opt (o : option obj) (k : string) : value :=
  match o with Some o => get o k | None => VUndef end.

(** [{...v}]: the own properties of an object, the indices of an array,
    nothing for the other values met here. *)
Definition spread (v : value) : obj :=
  match v with
  | VObj o => o
  | VArr l => list_to_map (imap (fun i x => (pretty i, x)) l)
  | _ => ∅
  end.

(** The [initialState] of [parseNode]; [id] is [node.id.toString()]. *)
Definition parseNode_initialState (node : obj) (id : string) : obj :=
  list_to_map [
    ("id", VStr id);
    ("type", get node "type" ?? VStr "default");
    ("dimensions", markRaw (VObj {[ "width" := VNum 0; "height" := VNum 0 ]}));
    ("handleBounds", VObj {[ "source" := VArr []; "target" := VArr [] ]});
    ("computedPosition",
       markRaw (VObj (spread (get node "position") ∪ {[ "z" := VNum 0 ]})));
    ("draggable", VUndef);
    ("selectable", VUndef);
    ("connectable", VUndef);
    ("focusable", VUndef);
    ("selected", VBool false);
    ("dragging", VBool false);
    ("resizing", VBool false);
    ("initialized", VBool false);
    ("isParent", VBool false);
    ("position", VObj {[ "x" := VNum 0; "y" := VNum 0 ]});
    ("data", if isDef (get node "data") then get node "data" else VObj ∅);
    ("events", markRaw (if isDef (get node "events") then get node "events" else VObj ∅))
  ].

Definition parseNode (node : obj) (existingNode : option obj) (parentNode : value)
  : option obj :=
  id ← toString (get node "id");
  let initialState := parseNode_initialState node id in
  Some (assign (default initialState existingNode) node
          {[ "id" := VStr id; "parentNode" := parentNode ]}).

(** The [initialState] of [parseEdge]; [id], [source] and [target] are
    the [toString()] of the fields of [edge]; the defaults are spread
    last and so win over the entries before them. *)
Definition parseEdge_initialState (edge : obj) (existingEdge defaultEdgeOptions : option obj)
    (id source target : string) : obj :=
  default ∅ defaultEdgeOptions ∪
  list_to_map [
    ("id", VStr id);
    ("type", get edge "type" ?? get_opt existingEdge "type" ?? VStr "default");
    ("source", VStr source);
    ("target", VStr target);
    ("sourceHandle", opt_toString (get edge "sourceHandle"));
    ("targetHandle", opt_toString (get edge "targetHandle"));
    ("updatable", get edge "updatable" ?? get_opt defaultEdgeOptions "updatable");
    ("selectable", get edge "selectable" ?? get_opt defaultEdgeOptions "selectable");
    ("focusable", get edge "focusable" ?? get_opt defaultEdgeOptions "focusable");
    ("data", if isDef (get edge "data") then get edge "data" else VObj ∅);
    ("events", markRaw (if isDef (get edge "events") then get edge "events" else VObj ∅));
    ("label", get edge "label" ?? VStr "");
    ("interactionWidth",
       get edge "interactionWidth" ?? get_opt defaultEdgeOptions "interactionWidth")
  ].

Definition parseEdge (edge : obj) (existingEdge defaultEdgeOptions : option obj)
  : option obj :=
  id ← toString (get edge "id");
  source ← toString (get edge "source");
  target ← toString (get edge "target");
  let initialState :=
    parseEdge_initialState edge existingEdge defaultEdgeOptions id source target in
  Some (assign (default initialState existingEdge) edge {[ "id" := VStr id ]}).

(** ** Graph queries *)

(** [nodeOrId: Node | { id: string } | string] *)
Inductive subject : Type :=
  | ById (id : string)
  | ByNode (node : obj).

(** [typeof nodeOrId === 'string' ? nodeOrId : nodeOrId.id] *)
Definition subject_id (nodeOrId : subject) : value :=
  match nodeOrId with ById id => VStr id | ByNode n => get n "id" end.

(** [dir: 'source' | 'target'] *)
Inductive direction : Type := Source | Target.

Definition dir_key (d : direction) : string :=
  match d with Source => "source" | Target => "target" end.

(** A [Set] of identifiers: membership is by value on primitives. *)
Definition set_has (s : list value) (v : value) : bool :=
  existsb (strict_eq v) s.

Definition set_add (v : value) (s : list value) : list value :=
  if set_has s v then s else s ++ [v].

Definition getConnectedElements (nodeOrId : subject) (nodes edges : list obj)
    (dir : direction) : list obj :=
  let id := subject_id nodeOrId in
  let origin := match dir with Source => Target | Target => Source end in
  let connectedIds :=
    foldl (fun acc edge =>
             if strict_eq (get edge (dir_key origin)) id
             then set_add (get edge (dir_key dir)) acc else acc)
          [] edges in
  List.filter (fun n => set_has connectedIds (get n "id")) nodes.

(** The two call shapes of [getOutgoers] and [getIncomers], told apart
    by [args.length]. *)
Inductive call_shape : Type :=
  | Three (nodeOrId : subject) (nodes edges : list obj)
  | Two (nodeOrId : subject) (elements : list obj).

(** [elements.find(p)], [undefined] when nothing satisfies [p]. *)
Definition find_value (p : obj → bool) (l : list obj) : value :=
  match List.find p l with Some n => VObj n | None => VUndef end.

Definition getOutgoers (args : call_shape) : list value :=
  match args with
  | Three nodeOrId nodes edges =>
      VObj <$> getConnectedElements nodeOrId nodes edges Target
  | Two nodeOrId elements =>
      let nodeId := subject_id nodeOrId in
      let outgoers :=
        List.filter (fun el => isEdge el && strict_eq (get el "source") nodeId) elements in
      (fun edge =>
         find_value (fun el => isNode el && strict_eq (get el "id") (get edge "target"))
                    elements)
      <$> outgoers
  end.

Definition getIncomers (args : call_shape) : list value :=
  match args with
  | Three nodeOrId nodes edges =>
      VObj <$> getConnectedElements nodeOrId nodes edges Source
  | Two nodeOrId elements =>
      let nodeId := subject_id nodeOrId in
      let incomers :=
        List.filter (fun el => isEdge el && strict_eq (get el "target") nodeId) elements in
      (fun edge =>
         find_value (fun el => isNode el && strict_eq (get el "id") (get edge "source"))
                    elements)
      <$> incomers
  end.

(** The test [connectionExists] applies to each element. *)
Definition same_connection (edge el : obj) : bool :=
  isEdge el
  && strict_eq (get el "source") (get edge "source")
  && strict_eq (get el "target") (get edge "target")
  && (strict_eq (get el "sourceHandle") (get edge "sourceHandle")
      || (negb (truthy (get el "sourceHandle")) && negb (truthy (get edge "sourceHandle"))))
  && (strict_eq (get el "targetHandle") (get edge "targetHandle")
      || (negb (truthy (get el "targetHandle")) && negb (truthy (get edge "targetHandle")))).

Definition connectionExists (edge : obj) (elements : list obj) : bool :=
  existsb (same_connection edge) elements.

(** ** Edge mutation protocol *)

Definition addEdge (edgeParams : obj) (defaults : option obj) (w : world)
  : option (array_ref * world) :=
  if negb (truthy (get edgeParams "source")) || negb (truthy (get edgeParams "target"))
  then
    Some (InputArray, warn "Can't create edge. An edge needs a source and a target." w)
  else
    let edge :=
      if isEdge edgeParams then edgeParams
      else <[ "id" := VStr (getEdgeId edgeParams) ]> edgeParams in
    edge ← parseEdge edge None defaults;
    if connectionExists edge (elements w) then Some (InputArray, w)
    else Some (InputArray, World (elements w ++ [edge]) (warnings w)).

(** [elements.find(p)] followed by [elements.indexOf(found)]: the first
    element satisfying [p] and its index.  ([indexOf] compares by
    reference; an earlier occurrence of the found object would satisfy
    [p] as well, so the index is that of the first match.) *)
Fixpoint find_index (p : obj → bool) (l : list obj) : option nat :=
  match l with
  | [] => None
  | e :: r => if p e then Some 0 else S <$> find_index p r
  end.

Definition updateEdge (oldEdge newConnection : obj) (w : world)
  : option (array_ref * world) :=
  if negb (truthy (get newConnection "source")) || negb (truthy (get newConnection "target"))
  then
    Some (InputArray, warn "Can't create new edge. An edge needs a source and a target." w)
  else
    match find_index (fun e => isEdge e && strict_eq (get e "id") (get oldEdge "id"))
                     (elements w) with
    | None =>
        Some (InputArray,
              warn ("The old edge with id=" +:+ template (get oldEdge "id")
                      +:+ " does not exist.") w)
    | Some i =>
        let edge : obj :=
          {[ "id" := VStr (getEdgeId newConnection);
             "source" := get newConnection "source";
             "target" := get newConnection "target";
             "sourceHandle" := get newConnection "sourceHandle";
             "targetHandle" := get newConnection "targetHandle" ]} ∪ oldEdge in
        let spliced := <[ i := edge ]> (elements w) in
        Some (FreshArray
                (List.filter (fun e => negb (strict_eq (get e "id") (get oldEdge "id")))
                             spliced),
              World spliced (warnings w))
    end.

(** ** Ancestor selection *)

(** [isParentSelected] recurses on the parent without a measure that
    decreases; [fuel] bounds the depth of the recursion and [None] says
    the bound was reached before an answer. *)
Fixpoint isParentSelected (fuel : nat) (node : obj) (findNode : value → option obj)
  : option bool :=
  match fuel with
  | O => None
  | S fuel =>
      if negb (truthy (get node "parentNode")) then Some false
      else
        match findNode (get node "parentNode") with
        | None => Some false
        | Some parent =>
            if truthy (get parent "selected") then Some true
            else isParentSelected fuel parent findNode
        end
  end.

(** The calls of [isParentSelected] that return, as a relation. *)
Inductive parent_selected (findNode : value → option obj) : obj → bool → Prop :=
  | ps_root node :
      truthy (get node "parentNode") = false →
      parent_selected findNode node false
  | ps_broken node :
      truthy (get node "parentNode") = true →
      findNode (get node "parentNode") = None →
      parent_selected findNode node false
  | ps_selected node parent :
      truthy (get node "parentNode") = true →
      findNode (get node "parentNode") = Some parent →
      truthy (get parent "selected") = true →
      parent_selected findNode node true
  | ps_step node parent b :
      truthy (get node "parentNode") = true →
      findNode (get node "parentNode") = Some parent →
      truthy (get parent "selected") = false →
      parent_selected findNode parent b →
      parent_selected findNode node b.

(** The chain of ancestors [findNode] yields from a node, nearest first. *)
Inductive ancestors (findNode : value → option obj) : obj → list obj → Prop :=
  | anc_nil node : ancestors findNode node []
  | anc_cons node parent l :
      truthy (get node "parentNode") = true →
      findNode (get node "parentNode") = Some parent →
      ancestors findNode parent l →
      ancestors findNode node (parent :: l).

(** The chain stops at [node]: no parent identifier, or one [findNode]
    does not know. *)
Definition chain_ends (findNode : value → option obj) (node : obj) : Prop :=
  truthy (get node "parentNode") = false ∨ findNode (get node "parentNode") = None.

(** ** Geometry

    Coordinates and sizes are numbers with fractions; they are taken as
    exact rationals (rounding, infinities and NaN of the machine numbers
    are outside the embedding, except that the product of an unmeasured
    size is kept as "not a number"). *)

Module Geometry.

#[local] Open Scope Q_scope.

Record Rect : Type := mkRect {
  rect_x : Q; rect_y : Q; rect_width : Q; rect_height : Q;
}.

Record XYPosition : Type := mkXY { pos_x : Q; pos_y : Q }.

Record ViewportTransform : Type := mkTransform {
  vt_x : Q; vt_y : Q; vt_zoom : Q;
}.

(** [Dimensions] of a node; a side not yet measured is [undefined]. *)
Record Dimensions : Type := mkDimensions {
  dim_width : option Q; dim_height : option Q;
}.

(** The fields of a [GraphNode] the selection test reads. *)
Record GraphNode : Type := mkGraphNode {
  computedPosition : option XYPosition;
  dimensions : option Dimensions;
  selectable : option bool;
}.

(** [n || 0] *)
Definition or_zero (n : option Q) : Q :=
  match n with
  | Some q => if Qeq_bool q 0 then 0 else q
  | None => 0
  end.

Definition getOverlappingArea (rectA rectB : Rect) : Z :=
  let xOverlap :=
    Qmax 0 (Qmin (rect_x rectA + rect_width rectA) (rect_x rectB + rect_width rectB)
            - Qmax (rect_x rectA) (rect_x rectB)) in
  let yOverlap :=
    Qmax 0 (Qmin (rect_y rectA + rect_height rectA) (rect_y rectB + rect_height rectB)
            - Qmax (rect_y rectA) (rect_y rectB)) in
  Qceiling (xOverlap * yOverlap).

Definition paneRect (rect : Rect) (t : ViewportTransform) : Rect :=
  {| rect_x := (rect_x rect - vt_x t) / vt_zoom t;
     rect_y := (rect_y rect - vt_y t) / vt_zoom t;
     rect_width := rect_width rect / vt_zoom t;
     rect_height := rect_height rect / vt_zoom t |}.

Definition node_position (node : GraphNode) : XYPosition :=
  default {| pos_x := 0; pos_y := 0 |} (computedPosition node).

Definition node_dimensions (node : GraphNode) : Dimensions :=
  default {| dim_width := Some 0; dim_height := Some 0 |} (dimensions node).

Definition nodeRect (node : GraphNode) : Rect :=
  {| rect_x := pos_x (node_position node);
     rect_y := pos_y (node_position node);
     rect_width := or_zero (dim_width (node_dimensions node));
     rect_height := or_zero (dim_height (node_dimensions node)) |}.

(** [typeof dimensions.width === 'undefined' || typeof dimensions.height
    === 'undefined' || dimensions.width === 0 || dimensions.height === 0] *)
Definition notInitialized (node : GraphNode) : bool :=
  let d := node_dimensions node in
  match dim_width d, dim_height d with
  | None, _ | _, None => true
  | Some w, Some h => Qeq_bool w 0 || Qeq_bool h 0
  end.

(** [dimensions.width * dimensions.height]; not a number ([None]) when a
    side is [undefined]. *)
Definition area (node : GraphNode) : option Q :=
  let d := node_dimensions node in
  match dim_width d, dim_height d with
  | Some w, Some h => Some (w * h)
  | _, _ => None
  end.

(** [overlappingArea >= area]; false against not-a-number. *)
Definition covers (overlappingArea : Z) (a : option Q) : bool :=
  match a with Some a => Qle_bool a (inject_Z overlappingArea) | None => false end.

(** The callback of the [filter] in [getNodesInside]. *)
Definition inside (pane : Rect) (partially excludeNonSelectableNodes : bool)
    (node : GraphNode) : bool :=
  if excludeNonSelectableNodes && negb (default false (selectable node)) then false
  else
    let overlappingArea := getOverlappingArea pane (nodeRect node) in
    let partiallyVisible := partially && (0 <? overlappingArea)%Z in
    notInitialized node || partiallyVisible || covers overlappingArea (area node).

(** The optional arguments take their defaults when left out:
    [{ x: 0, y: 0, zoom: 1 }], [false], [false]. *)
Definition getNodesInside (nodes : list GraphNode) (rect : Rect)
    (transform : option ViewportTransform)
    (partially excludeNonSelectableNodes : option bool) : list GraphNode :=
  let t := default {| vt_x := 0; vt_y := 0; vt_zoom := 1 |} transform in
  List.filter (inside (paneRect rect t) (default false partially)
                 (default false excludeNonSelectableNodes))
              nodes.

(** The overlap [getNodesInside] computes for a node. *)
Definition overlap (rect : Rect) (transform : option ViewportTransform)
    (node : GraphNode) : Z :=
  getOverlappingArea
    (paneRect rect (default {| vt_x := 0; vt_y := 0; vt_zoom := 1 |} transform))
    (nodeRect node).

(** Both sides measured and positive. *)
Definition measured_positive (node : GraphNode) : Prop :=
  ∃ w h, dimensions node = Some {| dim_width := Some w; dim_height := Some h |}
         ∧ 0 < w ∧ 0 < h.

(** *** Clamping, viewport transforms and stacking *)

(** [clamp(val, min = 0, max = 1)] *)
Definition clamp (val : Q) (min max : option Q) : Q :=
  Qmin (Qmax val (default 0 min)) (default 1 max).

(** [CoordinateExtent]: [[[x0, y0], [x1, y1]]]. *)
Definition CoordinateExtent : Type := (Q * Q) * (Q * Q).

Definition clampPosition (position : XYPosition) (extent : CoordinateExtent) : XYPosition :=
  {| pos_x := clamp (pos_x position) (Some (fst (fst extent))) (Some (fst (snd extent)));
     pos_y := clamp (pos_y position) (Some (snd (fst extent))) (Some (snd (snd extent))) |}.




(** The [offset] argument of [getTransformForBounds]: [{ x?: number,
    y?: number }]. *)
Record Offset : Type := mkOffset { off_x : option Q; off_y : option Q }.

(** [padding] is [0.1] and [offset] is [{ x: 0, y: 0 }] when left out. *)
Definition getTransformForBounds (bounds : Rect) (width height minZoom maxZoom : Q)
    (padding : option Q) (offset : option Offset) : ViewportTransform :=
  let padding := default (1 # 10) padding in
  let offset := default {| off_x := Some 0; off_y := Some 0 |} offset in
  let xZoom := width / (rect_width bounds * (1 + padding)) in
  let yZoom := height / (rect_height bounds * (1 + padding)) in
  let zoom := Qmin xZoom yZoom in
  let clampedZoom := clamp zoom (Some minZoom) (Some maxZoom) in
  let boundsCenterX := rect_x bounds + rect_width bounds / 2 in
  let boundsCenterY := rect_y bounds + rect_height bounds / 2 in
  let x := width / 2 - boundsCenterX * clampedZoom + default 0 (off_x offset) in
  let y := height / 2 - boundsCenterY * clampedZoom + default 0 (off_y offset) in
  {| vt_x := x; vt_y := y; vt_zoom := clampedZoom |}.




(** Two rectangles are apart along an axis. *)
Definition rect_apart (a b : Rect) : Prop :=
  rect_x a + rect_width a <= rect_x b ∨ rect_x b + rect_width b <= rect_x a
  ∨ rect_y a + rect_height a <= rect_y b ∨ rect_y b + rect_height b <= rect_y a.

(** Two points with the same coordinates. *)
Definition same_point (p q : XYPosition) : Prop :=
  pos_x p == pos_x q ∧ pos_y p == pos_y q.

End Geometry.

(** ** Bounding boxes

    [getRectOfNodes] folds from a box of infinities, and an unmeasured
    side gives not-a-number; the numbers of the boxes are therefore the
    rationals with the two infinities and NaN. *)

Module Bounds.

#[local] Open Scope Q_scope.

Inductive num : Type :=
  | NaN
  | NInf
  | Fin (q : Q)
  | PInf.

(** [Math.min] *)
Definition num_min (a b : num) : num :=
  match a, b with
  | NaN, _ | _, NaN => NaN
  | NInf, _ | _, NInf => NInf
  | PInf, n | n, PInf => n
  | Fin p, Fin q => Fin (Qmin p q)
  end.

(** [Math.max] *)
Definition num_max (a b : num) : num :=
  match a, b with
  | NaN, _ | _, NaN => NaN
  | PInf, _ | _, PInf => PInf
  | NInf, n | n, NInf => n
  | Fin p, Fin q => Fin (Qmax p q)
  end.

(** [a + b] *)
Definition num_add (a b : num) : num :=
  match a, b with
  | NaN, _ | _, NaN => NaN
  | PInf, NInf | NInf, PInf => NaN
  | PInf, _ | _, PInf => PInf
  | NInf, _ | _, NInf => NInf
  | Fin p, Fin q => Fin (p + q)
  end.

(** [a - b] *)
Definition num_sub (a b : num) : num :=
  match a, b with
  | NaN, _ | _, NaN => NaN
  | PInf, PInf | NInf, NInf => NaN
  | PInf, _ | _, NInf => PInf
  | NInf, _ | _, PInf => NInf
  | Fin p, Fin q => Fin (p - q)
  end.

Record Box : Type := mkBox { box_x : num; box_y : num; box_x2 : num; box_y2 : num }.

Record Rect : Type := mkRect { x : num; y : num; width : num; height : num }.

Definition getBoundsOfBoxes (box1 box2 : Box) : Box :=
  {| box_x := num_min (box_x box1) (box_x box2);
     box_y := num_min (box_y box1) (box_y box2);
     box_x2 := num_max (box_x2 box1) (box_x2 box2);
     box_y2 := num_max (box_y2 box1) (box_y2 box2) |}.

Definition rectToBox (r : Rect) : Box :=
  {| box_x := x r; box_y := y r;
     box_x2 := num_add (x r) (width r); box_y2 := num_add (y r) (height r) |}.

Definition boxToRect (b : Box) : Rect :=
  {| x := box_x b; y := box_y b;
     width := num_sub (box_x2 b) (box_x b); height := num_sub (box_y2 b) (box_y b) |}.

Definition getBoundsofRects (rect1 rect2 : Rect) : Rect :=
  boxToRect (getBoundsOfBoxes (rectToBox rect1) (rectToBox rect2)).



(** The box the fold of [getRectOfNodes] starts from. *)
Definition empty_box : Box :=
  {| box_x := PInf; box_y := PInf; box_x2 := NInf; box_y2 := NInf |}.




(** [a <= b]; nothing compares with NaN. *)
Definition num_le (a b : num) : Prop :=
  match a, b with
  | NaN, _ | _, NaN => False
  | NInf, _ | _, PInf => True
  | Fin p, Fin q => p <= q
  | _, _ => False
  end.




(** [outer] reaches at least as far as [inner] on every side. *)
Definition encloses (outer inner : Box) : Prop :=
  num_le (box_x outer) (box_x inner) ∧ num_le (box_y outer) (box_y inner)
  ∧ num_le (box_x2 inner) (box_x2 outer) ∧ num_le (box_y2 inner) (box_y2 outer).

Definition box_defined (b : Box) : Prop :=
  box_x b ≠ NaN ∧ box_y b ≠ NaN ∧ box_x2 b ≠ NaN ∧ box_y2 b ≠ NaN.





End Bounds.

(** ** Connected edges and nodes *)

(** [nodesOrId: Node[] | string] *)
Inductive nodes_or_id : Type :=
  | NodeList (nodes : list obj)
  | NodeId (id : string).

Definition getConnectedEdges (nodesOrId : nodes_or_id) (edges : list obj) : list obj :=
  let nodeIds :=
    match nodesOrId with
    | NodeId id => set_add (VStr id) []
    | NodeList nodes =>
        if (1 <=? length nodes)%nat
        then foldl (fun acc n => set_add (get n "id") acc) [] nodes
        else []
    end in
  List.filter (fun edge => set_has nodeIds (get edge "source")
                           || set_has nodeIds (get edge "target"))
              edges.

(** The nodes of [getConnectedNodes] are nodes, objects with an [id], or
    identifiers: the [subject]s. *)
Definition getConnectedNodes (nodes : list subject) (edges : list obj) : list subject :=
  let nodeIds := foldl (fun acc node => set_add (subject_id node) acc) [] nodes in
  let connectedNodeIds :=
    foldl (fun acc edge =>
             let acc :=
               if set_has nodeIds (get edge "source")
               then set_add (get edge "target") acc else acc in
             if set_has nodeIds (get edge "target")
             then set_add (get edge "source") acc else acc)
          [] edges in
  List.filter (fun node => set_has connectedNodeIds (subject_id node)) nodes.

(** ** Instance registry *)

(** The [Storage] class of [useVueFlow.ts]: the counter behind generated
    identifiers and the map of store instances, whatever a store is. *)
Record Storage (flow : Type) : Type := mkStorage {
  currentId : nat;
  flows : gmap string flow;
}.
Arguments mkStorage {flow}.
Arguments currentId {flow}.
Arguments flows {flow}.

(** [set(id, flow)] *)
Definition storage_set {flow} (id : string) (f : flow) (st : Storage flow) : Storage flow :=
  mkStorage (currentId st) (<[ id := f ]> (flows st)).

(** [get(id)] *)
Definition storage_get {flow} (id : string) (st : Storage flow) : option flow :=
  flows st !! id.

(** [remove(id)]: whether there was such an instance, and the storage
    without it. *)
Definition storage_remove {flow} (id : string) (st : Storage flow) : bool * Storage flow :=
  (bool_decide (is_Some (flows st !! id)), mkStorage (currentId st) (delete id (flows st))).



(** ** Vocabulary of the statements *)

(** The identifiers of a collection, in order. *)
Definition ids (l : list obj) : list value := map (fun e => get e "id") l.

(** A present, non-empty string. *)
Definition nonempty_string (v : value) : bool :=
  match v with VStr s => negb (String.eqb s "") | _ => false end.

(** Parameters [addEdge] is meant for: non-empty source and target,
    handles that are absent or primitive, and an [id] that, if there is
    one, is not [undefined] or [null]. *)
Definition connection_params (p : obj) : bool :=
  nonempty_string (get p "source") && nonempty_string (get p "target")
  && is_prim (get p "sourceHandle") && is_prim (get p "targetHandle")
  && (negb (has p "id") || negb (nullish (get p "id"))).

(** [DefaultEdgeOptions] leaves out the identity of an edge, its
    endpoints and its handles. *)
Definition default_options (d : option obj) : bool :=
  match d with
  | None => true
  | Some d =>
      negb (has d "id") && negb (has d "source") && negb (has d "target")
      && negb (has d "sourceHandle") && negb (has d "targetHandle")
  end.

(** The edges of a mixed list whose [key] endpoint is the subject. *)
Definition edges_at (key : string) (nodeOrId : subject) (elements : list obj) : list obj :=
  List.filter (fun el => isEdge el && strict_eq (get el key) (subject_id nodeOrId)) elements.

(** No node of the list carries the identifier. *)
Definition no_node_with_id (id : value) (elements : list obj) : Prop :=
  ∀ el, el ∈ elements → isNode el = true → strict_eq (get el "id") id = false.

(** [findNode] over a list of nodes: the first one with the identifier. *)
Definition findNode_in (nodes : list obj) (id : value) : option obj :=
  List.find (fun n => strict_eq (get n "id") id) nodes.

Definition unselected (node : obj) : Prop := truthy (get node "selected") = false.

(** One of two handle values stands for the other in the dedup test:
    they are the same, or both are empty ([undefined], [null], [""]). *)
Definition same_handle (a b : value) : Prop :=
  a = b ∨ (truthy a = false ∧ truthy b = false).

(** Some edge of the list leads from the identifier [id] at its [from]
    end to the identifier [v] at its [to] end. *)
Definition linked (edges : list obj) (from to : string) (id v : value) : bool :=
  existsb (fun e => strict_eq (get e from) id && strict_eq v (get e to)) edges.

(** Some subject of the list has the identifier [v]. *)
Definition listed (nodes : list subject) (v : value) : bool :=
  existsb (fun n => strict_eq v (subject_id n)) nodes.

(** The edge [addEdge] builds from its parameters before normalizing. *)
Definition with_id (p : obj) : obj :=
  if isEdge p then p else <[ "id" := VStr (getEdgeId p) ]> p.

(** How many elements of a collection are edges of the given connection. *)
Definition count_matching (p : obj) (l : list obj) : nat :=
  length (List.filter (same_connection p) l).

(** ** Strings *)

Definition dash : Ascii.ascii :=
  Eval cbv in match "-" with String a _ => a | EmptyString => Ascii.zero end.

Fixpoint no_dash (s : string) : bool :=
  match s with
  | EmptyString => true
  | String a r => negb (Ascii.eqb a dash) && no_dash r
  end.

Lemma append_cons a s t : String a s +:+ t = String a (s +:+ t).
Proof. reflexivity. Qed.

Lemma append_nil_l t : "" +:+ t = t.
Proof. reflexivity. Qed.

Lemma append_assoc s t u : (s +:+ t) +:+ u = s +:+ t +:+ u.
Proof. induction s as [|a s IH]; [done|]. by rewrite !append_cons, IH. Qed.

(** The first dash of a string splits it in one way only. *)
Lemma split_at_first_dash s1 s2 r1 r2 :
  no_dash s1 = true → no_dash s2 = true →
  s1 +:+ "-" +:+ r1 = s2 +:+ "-" +:+ r2 → s1 = s2 ∧ r1 = r2.
Proof.
  revert s2. induction s1 as [|a s1 IH]; intros [|b s2] H1 H2 E.
  - rewrite !append_nil_l in E. by simplify_eq.
  - rewrite append_nil_l, append_cons in E. injection E as <- _.
    by vm_compute in H2.
  - rewrite append_nil_l, append_cons in E. injection E as -> _.
    by vm_compute in H1.
  - rewrite !append_cons in E. injection E as -> E.
    simpl in H1, H2. apply andb_prop in H1 as [_ H1]. apply andb_prop in H2 as [_ H2].
    destruct (IH s2 H1 H2 E) as [-> ->]. done.
Qed.

Lemma length_append s t : String.length (s +:+ t) = String.length s + String.length t.
Proof. induction s as [|a s IH]; [done|]. rewrite append_cons. simpl. by rewrite IH. Qed.

(** A common suffix cancels. *)
Lemma append_inv_tail s1 s2 t : s1 +:+ t = s2 +:+ t → s1 = s2.
Proof.
  revert s2. induction s1 as [|a s1 IH]; intros [|b s2] E.
  - done.
  - apply (f_equal String.length) in E.
    rewrite append_nil_l, append_cons in E. simpl in E. rewrite length_append in E. lia.
  - apply (f_equal String.length) in E.
    rewrite append_nil_l, append_cons in E. simpl in E. rewrite length_append in E. lia.
  - rewrite !append_cons in E. injection E as -> E. by rewrite (IH s2 E).
Qed.

(** * Edge identifiers *)

Section EdgeId.

Implicit Types c : Connection.

Lemma connection_obj_source c : get (connection_obj c) "source" = VStr (c_source c).
Proof. unfold get, connection_obj. by destruct c as [s t [sh|] [th|]]. Qed.

Lemma connection_obj_target c : get (connection_obj c) "target" = VStr (c_target c).
Proof. unfold get, connection_obj. by destruct c as [s t [sh|] [th|]]. Qed.

Lemma connection_obj_sourceHandle c :
  get (connection_obj c) "sourceHandle" = from_option VStr VUndef (c_sourceHandle c).
Proof. unfold get, connection_obj. by destruct c as [s t [sh|] [th|]]. Qed.

Lemma connection_obj_targetHandle c :
  get (connection_obj c) "targetHandle" = from_option VStr VUndef (c_targetHandle c).
Proof. unfold get, connection_obj. by destruct c as [s t [sh|] [th|]]. Qed.

Lemma connection_obj_no_id c : connection_obj c !! "id" = None.
Proof. unfold connection_obj. by destruct c as [s t [sh|] [th|]]. Qed.

Lemma template_handle (h : option string) :
  template (from_option VStr VUndef h ?? VStr "") = default "" h.
Proof. by destruct h. Qed.

Lemma getEdgeId_connection c :
  getEdgeId (connection_obj c) = "vueflow__edge-" +:+ edge_key c.
Proof.
  unfold getEdgeId, edge_key.
  rewrite connection_obj_source, connection_obj_target,
    connection_obj_sourceHandle, connection_obj_targetHandle, !template_handle.
  reflexivity.
Qed.

(** Identifiers coincide exactly when the texts after the prefix do. *)
Lemma getEdgeId_eq_iff c1 c2 :
  getEdgeId (connection_obj c1) = getEdgeId (connection_obj c2)
  ↔ edge_key c1 = edge_key c2.
Proof.
  rewrite !getEdgeId_connection. split; [|by intros ->].
  intros E. by apply (inj (String.app "vueflow__edge-")) in E.
Qed.

(** C1, as stated, fails: the source ["a"] with handle ["b"] and the
    source ["ab"] without a handle are different connections with one
    identifier. *)
Lemma getEdgeId_collision :
  getEdgeId (connection_obj (mkConnection "a" "c" (Some "b") None))
    = getEdgeId (connection_obj (mkConnection "ab" "c" None None))
  ∧ mkConnection "a" "c" (Some "b") None ≠ mkConnection "ab" "c" None None.
Proof. split; [by vm_compute | discriminate]. Qed.

(** C1 (amended): [getEdgeId] is deterministic; two connections have the
    same identifier exactly when their texts
    [source + (sourceHandle ?? "") + "-" + target + (targetHandle ?? "")]
    coincide; and on connections that agree on their handles and have no
    dash in the source and its handle, equal identifiers give equal
    connections. *)
Theorem getEdgeId_deterministic_injective_without_dash c1 c2 :
  (c1 = c2 → getEdgeId (connection_obj c1) = getEdgeId (connection_obj c2))
  ∧ (getEdgeId (connection_obj c1) = getEdgeId (connection_obj c2)
     ↔ c_source c1 +:+ default "" (c_sourceHandle c1) +:+ "-"
         +:+ c_target c1 +:+ default "" (c_targetHandle c1)
       = c_source c2 +:+ default "" (c_sourceHandle c2) +:+ "-"
         +:+ c_target c2 +:+ default "" (c_targetHandle c2))
  ∧ (c_sourceHandle c1 = c_sourceHandle c2 →
     c_targetHandle c1 = c_targetHandle c2 →
     no_dash (c_source c1 +:+ default "" (c_sourceHandle c1)) = true →
     no_dash (c_source c2 +:+ default "" (c_sourceHandle c2)) = true →
     getEdgeId (connection_obj c1) = getEdgeId (connection_obj c2) →
     c1 = c2).
Proof.
  split; [by intros ->|]. split; [apply getEdgeId_eq_iff|].
  intros Hsh Hth D1 D2 E. apply getEdgeId_eq_iff in E. unfold edge_key in E.
  assert ((c_source c1 +:+ default "" (c_sourceHandle c1)) +:+ "-"
            +:+ (c_target c1 +:+ default "" (c_targetHandle c1))
          = (c_source c2 +:+ default "" (c_sourceHandle c2)) +:+ "-"
            +:+ (c_target c2 +:+ default "" (c_targetHandle c2))) as E'
    by (rewrite !append_assoc; exact E).
  destruct (split_at_first_dash _ _ _ _ D1 D2 E') as [Es Et].
  destruct c1 as [s1 t1 sh1 th1], c2 as [s2 t2 sh2 th2]; simpl in *. subst sh2 th2.
  apply append_inv_tail in Es. apply append_inv_tail in Et. by subst.
Qed.

(** The restricted injectivity at work on a handle-free connection. *)
Lemma getEdgeId_deterministic_injective_without_dash_witness :
  no_dash ("A" +:+ default "" None) = true
  ∧ getEdgeId (connection_obj (mkConnection "A" "B" None None)) = "vueflow__edge-A-B"
  ∧ mkConnection "A" "B" None None = mkConnection "A" "B" None None.
Proof.
  split; [reflexivity|]. split; [reflexivity|].
  apply (getEdgeId_deterministic_injective_without_dash
           (mkConnection "A" "B" None None) (mkConnection "A" "B" None None));
    reflexivity.
Defined.

(** C2, as stated, fails: the identifier of [A -> B] is not ["edge-A-B"]. *)
Lemma getEdgeId_prefix_differs :
  getEdgeId (connection_obj (mkConnection "A" "B" None None)) ≠ "edge-A-B".
Proof. by vm_compute. Qed.

End EdgeId.

(** * Edge mutation protocol *)

Section Mutation.

Implicit Types (p e el : obj) (w : world) (d : option obj).

(** *** Reading the result of [Object.assign] *)

Lemma get_lookup_Some (o : obj) k v : o !! k = Some v → get o k = v.
Proof. unfold get. by intros ->. Qed.

Lemma get_lookup_None (o : obj) k : o !! k = None → get o k = VUndef.
Proof. unfold get. by intros ->. Qed.

Lemma get_defined_lookup (o : obj) k : get o k ≠ VUndef → o !! k = Some (get o k).
Proof. unfold get. by destruct (o !! k). Qed.

Lemma has_true (o : obj) k : has o k = true ↔ is_Some (o !! k).
Proof. unfold has. by rewrite bool_decide_eq_true. Qed.

Lemma has_false (o : obj) k : has o k = false ↔ o !! k = None.
Proof. unfold has. rewrite bool_decide_eq_false. symmetry. apply eq_None_not_Some. Qed.

(** A property of the middle source that the last source lacks. *)
Lemma assign_lookup_source (target s1 s2 : obj) k v :
  s2 !! k = None → s1 !! k = Some v → assign target s1 s2 !! k = Some v.
Proof.
  intros H2 H1. unfold assign.
  rewrite lookup_union_r by done. by rewrite (lookup_union_Some_l _ _ _ _ H1).
Qed.

(** A property only the target has. *)
Lemma assign_lookup_target (target s1 s2 : obj) k :
  s2 !! k = None → s1 !! k = None → assign target s1 s2 !! k = target !! k.
Proof. intros H2 H1. unfold assign. by rewrite !lookup_union_r. Qed.

(** A property of the last source. *)
Lemma assign_lookup_last (target s1 s2 : obj) k v :
  s2 !! k = Some v → assign target s1 s2 !! k = Some v.
Proof. intros H2. unfold assign. by apply lookup_union_Some_l. Qed.

Lemma strict_eq_refl (v : value) : is_prim v = true → strict_eq v v = true.
Proof.
  destruct v as [| |b|n|s|l|o]; try done; intros _; simpl.
  - by apply bool_decide_eq_true.
  - apply Z.eqb_refl.
  - apply String.eqb_refl.
Qed.

(** C2 (amended): for every connection [getEdgeId] returns
    ["vueflow__edge-" + source + (sourceHandle ?? "") + "-" + target +
    (targetHandle ?? "")], and [addEdge({source:"A", target:"B"}, [])]
    yields a one-edge collection whose edge has id ["vueflow__edge-A-B"]. *)
Theorem getEdgeId_format :
  (∀ c : Connection,
     getEdgeId (connection_obj c)
     = "vueflow__edge-" +:+ c_source c +:+ default "" (c_sourceHandle c)
         +:+ "-" +:+ c_target c +:+ default "" (c_targetHandle c))
  ∧ ∃ e, addEdge (connection_obj (mkConnection "A" "B" None None)) None (World [] [])
         = Some (InputArray, World [e] [])
       ∧ get e "id" = VStr "vueflow__edge-A-B".
Proof.
  split; [apply getEdgeId_connection|].
  eexists. split; [by vm_compute|]. by vm_compute.
Qed.

Lemma find_index_None (q : obj → bool) (l : list obj) :
  (∀ e, e ∈ l → q e = false) → find_index q l = None.
Proof.
  induction l as [|a l IH]; intros H; [done|]. simpl.
  rewrite (H a) by apply list_elem_of_here.
  rewrite IH; [done|]. intros e He. apply H. by apply list_elem_of_further.
Qed.

(** C5: [addEdge] without a source or a target, [updateEdge] without a
    new source or target, and [updateEdge] for an old edge whose
    identifier no edge of the collection carries, warn and return the
    array they were given, with the elements it had; none of them
    throws. *)
Theorem invalid_mutation_is_noop w :
  (∀ p d, truthy (get p "source") && truthy (get p "target") = false →
     addEdge p d w
     = Some (InputArray,
             World (elements w)
               (warnings w ++ ["Can't create edge. An edge needs a source and a target."])))
  ∧ (∀ oldEdge newConnection,
       truthy (get newConnection "source") && truthy (get newConnection "target") = false →
       updateEdge oldEdge newConnection w
       = Some (InputArray,
               World (elements w)
                 (warnings w ++
                    ["Can't create new edge. An edge needs a source and a target."])))
  ∧ (∀ oldEdge newConnection,
       (∀ el, el ∈ elements w → isEdge el = true →
              strict_eq (get el "id") (get oldEdge "id") = false) →
       ∃ message,
         updateEdge oldEdge newConnection w
         = Some (InputArray, World (elements w) (warnings w ++ [message]))).
Proof.
  split; [|split].
  - intros p d H. unfold addEdge.
    destruct (truthy (get p "source")), (truthy (get p "target")); done.
  - intros o n H. unfold updateEdge.
    destruct (truthy (get n "source")), (truthy (get n "target")); done.
  - intros o n H. unfold updateEdge.
    destruct (negb _ || negb _); [by eexists|].
    rewrite find_index_None; [by eexists|].
    intros e He. destruct (isEdge e) eqn:Ee; [|done]. simpl. by apply H.
Qed.

(** The three rejected calls on a one-edge collection. *)
Lemma invalid_mutation_is_noop_witness :
  let w := World [ {[ "id" := VStr "e1"; "source" := VStr "A"; "target" := VStr "B" ]} ] [] in
  addEdge {[ "source" := VStr "A"; "target" := VStr "" ]} None w
    = Some (InputArray,
            World (elements w) ["Can't create edge. An edge needs a source and a target."])
  ∧ updateEdge {[ "id" := VStr "e1" ]} {[ "target" := VStr "B" ]} w
    = Some (InputArray,
            World (elements w)
              ["Can't create new edge. An edge needs a source and a target."])
  ∧ ∃ message,
      updateEdge {[ "id" := VStr "e2" ]} {[ "source" := VStr "A"; "target" := VStr "C" ]} w
      = Some (InputArray, World (elements w) [message]).
Proof.
  intros w. destruct (invalid_mutation_is_noop w) as (H1 & H2 & H3).
  split; [|split].
  - apply (H1 {[ "source" := VStr "A"; "target" := VStr "" ]} None). reflexivity.
  - apply (H2 {[ "id" := VStr "e1" ]} {[ "target" := VStr "B" ]}). reflexivity.
  - apply (H3 {[ "id" := VStr "e2" ]} {[ "source" := VStr "A"; "target" := VStr "C" ]}).
    intros el Hel _. apply list_elem_of_singleton in Hel. subst el. reflexivity.
Defined.

(** *** What [addEdge] hands to [connectionExists] *)

Lemma with_id_lookup_ne p k : k ≠ "id" → with_id p !! k = p !! k.
Proof.
  intros Hk. unfold with_id. destruct (isEdge p); [done|].
  by rewrite lookup_insert_ne.
Qed.

Lemma with_id_get_ne p k : k ≠ "id" → get (with_id p) k = get p k.
Proof. intros Hk. unfold get. by rewrite with_id_lookup_ne. Qed.

Lemma nonempty_string_inv v :
  nonempty_string v = true → ∃ s, v = VStr s ∧ truthy v = true ∧ nullish v = false.
Proof. destruct v; try done. intros H. by eexists. Qed.

Lemma connection_params_id p :
  connection_params p = true → nullish (get (with_id p) "id") = false.
Proof.
  unfold connection_params. rewrite !andb_true_iff, orb_true_iff, !negb_true_iff.
  intros [[[[Hs Ht] _] _] Hid]. unfold with_id.
  apply nonempty_string_inv in Hs as (s & Hs & _), Ht as (t & Ht & _).
  destruct (isEdge p) eqn:E.
  - destruct Hid as [Hid|Hid]; [|done].
    unfold isEdge in E. rewrite !andb_true_iff in E. destruct E as [[E _] _]. congruence.
  - unfold get. by rewrite lookup_insert_eq.
Qed.

Lemma default_options_lookup d k :
  default_options d = true →
  k = "source" ∨ k = "target" ∨ k = "sourceHandle" ∨ k = "targetHandle" →
  default ∅ d !! k = None.
Proof.
  destruct d as [d|]; [|by intros; apply lookup_empty]. simpl.
  rewrite !andb_true_iff, !negb_true_iff, !has_false.
  intros [[[[_ ?] ?] ?] ?] [->|[->|[->| ->]]]; done.
Qed.

(** The normalized edge reads like the parameters on the four fields of
    a connection. *)
Lemma parseEdge_keeps_connection p d k :
  connection_params p = true → default_options d = true →
  k = "source" ∨ k = "target" ∨ k = "sourceHandle" ∨ k = "targetHandle" →
  ∃ e, parseEdge (with_id p) None d = Some e
       ∧ get e k = get p k ∧ isEdge e = true.
Proof.
  intros Hp Hd Hk.
  assert (k ≠ "id") as Hne by (destruct Hk as [->|[->|[->| ->]]]; done).
  pose proof (connection_params_id p Hp) as Hid.
  unfold connection_params in Hp. rewrite !andb_true_iff in Hp.
  destruct Hp as [[[[Hs Ht] _] _] _].
  apply nonempty_string_inv in Hs as (s & Hs & _ & Hsn), Ht as (t & Ht & _ & Htn).
  unfold parseEdge, toString.
  rewrite Hid, !with_id_get_ne, Hsn, Htn by done. simpl. eexists. split; [done|].
  assert (with_id p !! "source" = Some (VStr s)) as Ls.
  { rewrite with_id_lookup_ne by done. rewrite <- Hs. apply get_defined_lookup. by rewrite Hs. }
  assert (with_id p !! "target" = Some (VStr t)) as Lt.
  { rewrite with_id_lookup_ne by done. rewrite <- Ht. apply get_defined_lookup. by rewrite Ht. }
  split.
  - destruct (p !! k) as [v|] eqn:Ek.
    + rewrite (get_lookup_Some p k v Ek). apply get_lookup_Some.
      eapply assign_lookup_source; [by apply lookup_singleton_ne|].
      by rewrite with_id_lookup_ne.
    + rewrite (get_lookup_None p k Ek). unfold get at 1.
      rewrite assign_lookup_target;
        [| by apply lookup_singleton_ne | by rewrite with_id_lookup_ne].
      simpl. unfold parseEdge_initialState.
      rewrite lookup_union_r by by apply default_options_lookup.
      assert (get (with_id p) k = VUndef) as Hu
        by (rewrite with_id_get_ne by done; by apply get_lookup_None).
      destruct Hk as [->|[->|[->| ->]]].
      * exfalso. unfold get in Hu. by rewrite Ls in Hu.
      * exfalso. unfold get in Hu. by rewrite Lt in Hu.
      * rewrite Hu. reflexivity.
      * rewrite Hu. reflexivity.
  - unfold isEdge. rewrite !andb_true_iff, !has_true. split; [split|].
    + eexists. apply assign_lookup_last. apply lookup_singleton_eq.
    + eexists. eapply assign_lookup_source; [by apply lookup_singleton_ne|exact Ls].
    + eexists. eapply assign_lookup_source; [by apply lookup_singleton_ne|exact Lt].
Qed.

Lemma parseEdge_connection p d :
  connection_params p = true → default_options d = true →
  ∃ e, parseEdge (with_id p) None d = Some e
       ∧ isEdge e = true
       ∧ get e "source" = get p "source" ∧ get e "target" = get p "target"
       ∧ get e "sourceHandle" = get p "sourceHandle"
       ∧ get e "targetHandle" = get p "targetHandle".
Proof.
  intros Hp Hd.
  destruct (parseEdge_keeps_connection p d "source" Hp Hd) as (e & He & H1 & Hi); [tauto|].
  destruct (parseEdge_keeps_connection p d "target" Hp Hd) as (e2 & He2 & H2 & _); [tauto|].
  destruct (parseEdge_keeps_connection p d "sourceHandle" Hp Hd) as (e3 & He3 & H3 & _);
    [tauto|].
  destruct (parseEdge_keeps_connection p d "targetHandle" Hp Hd) as (e4 & He4 & H4 & _);
    [tauto|].
  rewrite He in He2, He3, He4.
  injection He2 as <-. injection He3 as <-. injection He4 as <-. by exists e.
Qed.

Lemma same_connection_ext e p el :
  get e "source" = get p "source" → get e "target" = get p "target" →
  get e "sourceHandle" = get p "sourceHandle" →
  get e "targetHandle" = get p "targetHandle" →
  same_connection e el = same_connection p el.
Proof. unfold same_connection. by intros -> -> -> ->. Qed.

Lemma same_connection_self p e :
  connection_params p = true → isEdge e = true →
  get e "source" = get p "source" → get e "target" = get p "target" →
  get e "sourceHandle" = get p "sourceHandle" →
  get e "targetHandle" = get p "targetHandle" →
  same_connection p e = true.
Proof.
  unfold connection_params, same_connection. rewrite !andb_true_iff.
  intros [[[[Hs Ht] Hsh] Hth] _] -> -> -> -> ->.
  apply nonempty_string_inv in Hs as (s & -> & _), Ht as (t & -> & _).
  rewrite !strict_eq_refl by done. done.
Qed.

Lemma count_matching_app p l1 l2 :
  count_matching p (l1 ++ l2) = count_matching p l1 + count_matching p l2.
Proof. unfold count_matching. by rewrite List.filter_app, length_app. Qed.

Lemma count_matching_exists p l :
  existsb (same_connection p) l = negb (Nat.eqb (count_matching p l) 0).
Proof.
  unfold count_matching. induction l as [|a l IH]; [done|]. simpl.
  destruct (same_connection p a); [done|]. by rewrite IH.
Qed.

(** C3, as stated, fails: a collection that already holds the edge twice
    still holds it twice after the two calls. *)
Lemma addEdge_keeps_earlier_duplicates :
  let p : obj := {[ "source" := VStr "A"; "target" := VStr "B" ]} in
  let e1 : obj := {[ "id" := VStr "e1"; "source" := VStr "A"; "target" := VStr "B" ]} in
  let e2 : obj := {[ "id" := VStr "e2"; "source" := VStr "A"; "target" := VStr "B" ]} in
  let w := World [e1; e2] [] in
  addEdge p None w = Some (InputArray, w)
  ∧ (r ← addEdge p None w; addEdge p None r.2) = Some (InputArray, w)
  ∧ count_matching p (elements w) = 2.
Proof. repeat split; by vm_compute. Qed.

(** C3 (amended): for parameters with a non-empty source and target, a
    first [addEdge] and a second one on its result both return the array
    they were given without a warning or an error; the second call leaves
    the collection as the first one left it; and the collection then
    holds as many edges of that connection as before, or one if it held
    none: exactly one whenever it held at most one. *)
Theorem addEdge_idempotent p d w :
  connection_params p = true → default_options d = true →
  ∃ w1,
    addEdge p d w = Some (InputArray, w1)
    ∧ addEdge p d w1 = Some (InputArray, w1)
    ∧ warnings w1 = warnings w
    ∧ count_matching p (elements w1) = Nat.max 1 (count_matching p (elements w))
    ∧ ((count_matching p (elements w) ≤ 1)%nat → count_matching p (elements w1) = 1).
Proof.
  intros Hp Hd.
  destruct (parseEdge_connection p d Hp Hd) as (e & He & Hi & H1 & H2 & H3 & H4).
  assert (∀ el, same_connection e el = same_connection p el) as Hx
    by (intros el; by apply same_connection_ext).
  assert (∀ l, connectionExists e l = negb (Nat.eqb (count_matching p l) 0)) as Hex.
  { intros l. rewrite <- count_matching_exists. unfold connectionExists.
    induction l as [|a l IH]; [done|]. simpl. by rewrite Hx, IH. }
  pose proof (same_connection_self p e Hp Hi H1 H2 H3 H4) as Hself.
  assert (∀ w', addEdge p d w'
                = if connectionExists e (elements w') then Some (InputArray, w')
                  else Some (InputArray, World (elements w' ++ [e]) (warnings w'))) as Hadd.
  { intros w'. unfold addEdge. fold (with_id p).
    unfold connection_params in Hp. rewrite !andb_true_iff in Hp.
    destruct Hp as [[[[Hs Ht] _] _] _].
    apply nonempty_string_inv in Hs as (s & _ & -> & _), Ht as (t & _ & -> & _).
    simpl. by rewrite He. }
  destruct (connectionExists e (elements w)) eqn:Ew.
  - exists w. rewrite !Hadd, Ew. rewrite Hex in Ew.
    apply negb_true_iff, Nat.eqb_neq in Ew. repeat split; lia.
  - exists (World (elements w ++ [e]) (warnings w)).
    rewrite !Hadd, Ew. simpl. rewrite Hex in Ew.
    apply negb_false_iff, Nat.eqb_eq in Ew.
    assert (count_matching p (elements w ++ [e]) = 1) as Hc.
    { rewrite count_matching_app, Ew. unfold count_matching. simpl. by rewrite Hself. }
    rewrite Hex, Hc, Ew. done.
Qed.

(** The two calls on an empty collection and a handle-free connection. *)
Lemma addEdge_idempotent_witness :
  let p : obj := {[ "source" := VStr "A"; "target" := VStr "B" ]} in
  ∃ w1,
    addEdge p None (World [] []) = Some (InputArray, w1)
    ∧ addEdge p None w1 = Some (InputArray, w1)
    ∧ warnings w1 = []
    ∧ count_matching p (elements w1) = 1.
Proof.
  intros p.
  destruct (addEdge_idempotent p None (World [] [])) as (w1 & H1 & H2 & H3 & _ & H5);
    [reflexivity | reflexivity |].
  exists w1. repeat split; [exact H1 | exact H2 | exact H3 |].
  apply H5. vm_compute. lia.
Defined.

(** Every connection with a non-empty source and target is such a
    parameter. *)
Lemma connection_obj_params (c : Connection) :
  c_source c ≠ "" → c_target c ≠ "" → connection_params (connection_obj c) = true.
Proof.
  intros Hs Ht. unfold connection_params.
  rewrite connection_obj_source, connection_obj_target,
    connection_obj_sourceHandle, connection_obj_targetHandle.
  assert (has (connection_obj c) "id" = false) as ->
    by apply has_false, connection_obj_no_id.
  simpl. apply String.eqb_neq in Hs, Ht. rewrite Hs, Ht.
  by destruct (c_sourceHandle c), (c_targetHandle c).
Qed.

(** *** What [updateEdge] does when it finds the old edge *)

Lemma find_index_Some (q : obj → bool) (l : list obj) i :
  find_index q l = Some i →
  (i < length l)%nat ∧ ∃ e, l !! i = Some e ∧ q e = true.
Proof.
  revert i. induction l as [|a l IH]; intros i H; [done|]. simpl in H.
  destruct (q a) eqn:Ea.
  - injection H as <-. split; [simpl; lia|]. by exists a.
  - destruct (find_index q l) as [j|]; [|done]. injection H as <-.
    destruct (IH j eq_refl) as (Hj & e & He & Hq). split; [simpl; lia|]. by exists e.
Qed.

(** The replacement [updateEdge] builds: the old edge with the identity,
    endpoints and handles of the new connection. *)
Lemma replacement_fields oldEdge newConnection :
  let edge : obj :=
    {[ "id" := VStr (getEdgeId newConnection);
       "source" := get newConnection "source";
       "target" := get newConnection "target";
       "sourceHandle" := get newConnection "sourceHandle";
       "targetHandle" := get newConnection "targetHandle" ]} ∪ oldEdge in
  get edge "id" = VStr (getEdgeId newConnection)
  ∧ get edge "source" = get newConnection "source"
  ∧ get edge "target" = get newConnection "target"
  ∧ get edge "sourceHandle" = get newConnection "sourceHandle"
  ∧ get edge "targetHandle" = get newConnection "targetHandle"
  ∧ ∀ k, k ≠ "id" → k ≠ "source" → k ≠ "target" → k ≠ "sourceHandle" →
         k ≠ "targetHandle" → edge !! k = oldEdge !! k.
Proof.
  intros edge. repeat split;
    try (apply get_lookup_Some, lookup_union_Some_l; reflexivity).
  intros k H1 H2 H3 H4 H5. unfold edge. apply lookup_union_r.
  rewrite !lookup_insert_ne by done. by apply lookup_singleton_ne.
Qed.

(** X21: when the identifier derived for the new connection is not the
    old one, the array returned holds the replacement where the old edge was
    and, around it, the elements that do not carry the old identifier;
    an edge that already has the new identifier stays. *)
Lemma updateEdge_replaces oldEdge newConnection w i :
  truthy (get newConnection "source") = true →
  truthy (get newConnection "target") = true →
  find_index (fun e => isEdge e && strict_eq (get e "id") (get oldEdge "id")) (elements w)
    = Some i →
  strict_eq (VStr (getEdgeId newConnection)) (get oldEdge "id") = false →
  let edge : obj :=
    {[ "id" := VStr (getEdgeId newConnection);
       "source" := get newConnection "source";
       "target" := get newConnection "target";
       "sourceHandle" := get newConnection "sourceHandle";
       "targetHandle" := get newConnection "targetHandle" ]} ∪ oldEdge in
  let keep := fun e => negb (strict_eq (get e "id") (get oldEdge "id")) in
  ∃ r w', updateEdge oldEdge newConnection w = Some (r, w')
    ∧ contents w' r
      = (List.filter keep (take i (elements w))
           ++ edge :: List.filter keep (drop (S i) (elements w)))%list
    ∧ elements w' = <[ i := edge ]> (elements w)
    ∧ warnings w' = warnings w.
Proof.
  intros Hs Ht Hf Hne edge keep. unfold updateEdge. rewrite Hs, Ht, Hf. simpl.
  eexists _, _. split; [done|]. simpl. split; [|done].
  apply find_index_Some in Hf as [Hi _].
  fold edge. rewrite (insert_take_drop _ _ _ Hi), List.filter_app. simpl.
  assert (get edge "id" = VStr (getEdgeId newConnection)) as ->
    by apply replacement_fields.
  by rewrite Hne.
Qed.

(** When it is the old one, nothing with that identifier is returned:
    the replacement is dropped with the rest. *)
Lemma updateEdge_same_id_returns_no_replacement oldEdge newConnection w i :
  truthy (get newConnection "source") = true →
  truthy (get newConnection "target") = true →
  find_index (fun e => isEdge e && strict_eq (get e "id") (get oldEdge "id")) (elements w)
    = Some i →
  strict_eq (VStr (getEdgeId newConnection)) (get oldEdge "id") = true →
  ∃ r w', updateEdge oldEdge newConnection w = Some (r, w')
    ∧ (∀ e, e ∈ contents w' r → get e "id" ≠ VStr (getEdgeId newConnection))
    ∧ (length (contents w' r) < length (elements w))%nat.
Proof.
  intros Hs Ht Hf Heq. unfold updateEdge. rewrite Hs, Ht, Hf. simpl.
  eexists _, _. split; [done|]. simpl.
  set (edge := _ ∪ oldEdge). set (keep := fun e : obj => negb _).
  assert (keep edge = false) as Hk.
  { unfold keep. assert (get edge "id" = VStr (getEdgeId newConnection)) as ->
      by apply replacement_fields.
    by rewrite Heq. }
  split.
  - intros e He Hid. apply list_elem_of_In, List.filter_In in He as [_ He].
    unfold keep in He. rewrite Hid, Heq in He. done.
  - apply find_index_Some in Hf as [Hi _].
    rewrite (insert_take_drop _ _ _ Hi), List.filter_app. simpl. rewrite Hk.
    rewrite length_app.
    pose proof (List.filter_length_le keep (take i (elements w))) as H1.
    pose proof (List.filter_length_le keep (drop (S i) (elements w))) as H2.
    rewrite length_take in H1. rewrite length_drop in H2. lia.
Qed.

(** C4: the edge [A -> B] that [addEdge] made, updated to the connection
    [A -> B] again.  The replacement gets the identifier the old edge
    has, the array given is spliced, and the filter that follows drops
    the replacement with everything else of that identifier: the array
    returned holds no edge at all. *)
Theorem updateEdge_same_id_drops_the_edge :
  let oldEdge : obj :=
    {[ "id" := VStr "vueflow__edge-A-B"; "source" := VStr "A"; "target" := VStr "B" ]} in
  let newConnection : obj := {[ "source" := VStr "A"; "target" := VStr "B" ]} in
  ∃ w', updateEdge oldEdge newConnection (World [oldEdge] []) = Some (FreshArray [], w')
        ∧ ids (elements w') = [VStr "vueflow__edge-A-B"]
        ∧ warnings w' = [].
Proof. eexists. split; [by vm_compute|]. split; by vm_compute. Qed.

End Mutation.

(** * Graph normalizer *)

Section Normalizer.

Implicit Types (raw prev e : obj) (existing defaults : option obj).

Lemma parseNode_Some raw existing parentNode :
  nullish (get raw "id") = false →
  parseNode raw existing parentNode
  = Some (assign (default (parseNode_initialState raw (template (get raw "id"))) existing)
            raw {[ "id" := VStr (template (get raw "id")); "parentNode" := parentNode ]}).
Proof. intros H. unfold parseNode, toString. by rewrite H. Qed.

Lemma parseEdge_Some raw existing defaults :
  nullish (get raw "id") = false → nullish (get raw "source") = false →
  nullish (get raw "target") = false →
  parseEdge raw existing defaults
  = Some (assign
            (default (parseEdge_initialState raw existing defaults
                        (template (get raw "id")) (template (get raw "source"))
                        (template (get raw "target"))) existing)
            raw {[ "id" := VStr (template (get raw "id")) ]}).
Proof. intros H1 H2 H3. unfold parseEdge, toString. by rewrite H1, H2, H3. Qed.

(** C8, as stated, fails: a [parentNode] present on the raw node is
    replaced by the third argument of [parseNode], here left out, and an
    [id] given as a number by its string form. *)
Lemma parseNode_overrides_raw_parentNode :
  let raw : obj :=
    {[ "id" := VNum 7; "position" := VObj {[ "x" := VNum 0; "y" := VNum 0 ]};
       "parentNode" := VStr "p" ]} in
  raw !! "parentNode" = Some (VStr "p")
  ∧ (e ← parseNode raw None VUndef; e !! "parentNode") = Some VUndef
  ∧ raw !! "id" = Some (VNum 7)
  ∧ (e ← parseNode raw None VUndef; e !! "id") = Some (VStr "7").
Proof. repeat split; by vm_compute. Qed.

(** C8 (amended): [parseNode] and [parseEdge] return an entity whenever
    the identifiers they convert are there.  In it every field present on
    raw other than [id] (and, for nodes, [parentNode]) has the value raw
    gives it, whatever the previous entity and the defaults say; every
    such field absent from raw has the value of the previous entity when
    there is one, so that [dimensions], [handleBounds] and
    [computedPosition] are kept; without a previous entity an edge field
    absent from raw takes the value of the default edge options if they
    give one.  [id] is the string form of raw's [id], and a node's
    [parentNode] is the third argument. *)
Theorem parse_merge_precedence raw existing defaults parentNode :
  (nullish (get raw "id") = false →
   ∃ e, parseNode raw existing parentNode = Some e
     ∧ (∀ k v, k ≠ "id" → k ≠ "parentNode" → raw !! k = Some v → e !! k = Some v)
     ∧ (∀ prev k, existing = Some prev → k ≠ "id" → k ≠ "parentNode" →
                  raw !! k = None → e !! k = prev !! k)
     ∧ e !! "id" = Some (VStr (template (get raw "id")))
     ∧ e !! "parentNode" = Some parentNode)
  ∧ (nullish (get raw "id") = false → nullish (get raw "source") = false →
     nullish (get raw "target") = false →
     ∃ e, parseEdge raw existing defaults = Some e
       ∧ (∀ k v, k ≠ "id" → raw !! k = Some v → e !! k = Some v)
       ∧ (∀ prev k, existing = Some prev → k ≠ "id" →
                    raw !! k = None → e !! k = prev !! k)
       ∧ (∀ dflt k v, existing = None → defaults = Some dflt → k ≠ "id" →
                      raw !! k = None → dflt !! k = Some v → e !! k = Some v)
       ∧ e !! "id" = Some (VStr (template (get raw "id")))).
Proof.
  split.
  - intros Hid. rewrite parseNode_Some by done. eexists. split; [done|].
    split; [|split; [|split]].
    + intros k v H1 H2 Hk. eapply assign_lookup_source; [|done].
      rewrite lookup_insert_ne by done. by apply lookup_singleton_ne.
    + intros prev k -> H1 H2 Hk. simpl. apply assign_lookup_target; [|done].
      rewrite lookup_insert_ne by done. by apply lookup_singleton_ne.
    + apply assign_lookup_last. apply lookup_insert_eq.
    + apply assign_lookup_last. by rewrite lookup_insert_ne, lookup_singleton_eq.
  - intros Hid Hs Ht. rewrite parseEdge_Some by done. eexists. split; [done|].
    split; [|split; [|split]].
    + intros k v H1 Hk. eapply assign_lookup_source; [|done]. by apply lookup_singleton_ne.
    + intros prev k -> H1 Hk. simpl. apply assign_lookup_target; [|done].
      by apply lookup_singleton_ne.
    + intros dflt k v -> -> H1 Hk Hd. simpl.
      rewrite assign_lookup_target; [|by apply lookup_singleton_ne|done].
      unfold parseEdge_initialState. simpl. by apply lookup_union_Some_l.
    + apply assign_lookup_last. apply lookup_singleton_eq.
Qed.

(** A measured node updated with a new position and label keeps its
    dimensions. *)
Lemma parse_merge_precedence_witness :
  let prev : obj :=
    {[ "id" := VStr "n"; "dimensions" := VObj {[ "width" := VNum 10; "height" := VNum 20 ]};
       "label" := VStr "old" ]} in
  let raw : obj := {[ "id" := VStr "n"; "label" := VStr "new" ]} in
  ∃ e, parseNode raw (Some prev) VUndef = Some e
       ∧ e !! "label" = Some (VStr "new")
       ∧ e !! "dimensions" = prev !! "dimensions".
Proof.
  intros prev raw.
  destruct (parse_merge_precedence raw (Some prev) None VUndef) as [H _].
  destruct H as (e & He & Hraw & Hprev & _); [reflexivity|].
  exists e. split; [exact He|]. split.
  - apply Hraw; [discriminate | discriminate | reflexivity].
  - apply (Hprev prev); [reflexivity | discriminate | discriminate | reflexivity].
Defined.

(** C9: on a raw edge whose identifiers are numbers, [parseEdge] returns
    the string form of [id], while [source] and [target] stay numbers:
    the string forms computed for the initial state are overwritten by
    the raw fields. *)
Theorem parseEdge_keeps_numeric_endpoints :
  let raw : obj := {[ "id" := VNum 1; "source" := VNum 2; "target" := VNum 3 ]} in
  parseEdge_initialState raw None None "1" "2" "3" !! "source" = Some (VStr "2")
  ∧ ∃ e, parseEdge raw None None = Some e
       ∧ e !! "id" = Some (VStr "1")
       ∧ e !! "source" = Some (VNum 2)
       ∧ e !! "target" = Some (VNum 3).
Proof. split; [by vm_compute|]. eexists. repeat split; by vm_compute. Qed.

(** The part of C9 that holds: the [id] of a parsed node or edge is a
    string. *)
Lemma parse_id_is_string raw existing defaults parentNode e :
  parseNode raw existing parentNode = Some e ∨ parseEdge raw existing defaults = Some e →
  ∃ s, e !! "id" = Some (VStr s).
Proof.
  intros [H|H].
  - unfold parseNode in H. destruct (toString (get raw "id")) as [id|]; [|done].
    simpl in H. injection H as <-. exists id. apply assign_lookup_last, lookup_insert_eq.
  - unfold parseEdge in H. destruct (toString (get raw "id")) as [id|]; [|done].
    destruct (toString (get raw "source")); [|done].
    destruct (toString (get raw "target")); [|done].
    simpl in H. injection H as <-. exists id. apply assign_lookup_last, lookup_singleton_eq.
Qed.

End Normalizer.

(** * Graph queries *)

Section Queries.

Implicit Types (s : subject) (els nodes edges : list obj) (v : value).

Lemma find_value_none (q : obj → bool) els :
  (∀ el, el ∈ els → q el = false) → find_value q els = VUndef.
Proof.
  intros H. unfold find_value.
  destruct (List.find q els) as [n|] eqn:E; [|done].
  apply List.find_some in E as [Hin Hq]. apply list_elem_of_In in Hin.
  by rewrite (H n Hin) in Hq.
Qed.

Lemma getConnectedElements_subset s nodes edges dir n :
  n ∈ getConnectedElements s nodes edges dir → n ∈ nodes.
Proof.
  unfold getConnectedElements. rewrite !list_elem_of_In, List.filter_In. tauto.
Qed.

(** C10: in the two-argument shape the result has one entry per matching
    edge, and the entry of an edge whose counterpart node is not in the
    list is [undefined]; in the three-argument shape every entry is a
    node of the node list. *)
Theorem two_argument_shape_yields_undefined s els :
  (length (getOutgoers (Two s els)) = length (edges_at "source" s els)
   ∧ ∀ i edge, edges_at "source" s els !! i = Some edge →
               no_node_with_id (get edge "target") els →
               getOutgoers (Two s els) !! i = Some VUndef)
  ∧ (length (getIncomers (Two s els)) = length (edges_at "target" s els)
     ∧ ∀ i edge, edges_at "target" s els !! i = Some edge →
                 no_node_with_id (get edge "source") els →
                 getIncomers (Two s els) !! i = Some VUndef)
  ∧ ∀ nodes edges v,
      v ∈ getOutgoers (Three s nodes edges) ∨ v ∈ getIncomers (Three s nodes edges) →
      ∃ n, v = VObj n ∧ n ∈ nodes.
Proof.
  split; [|split].
  - split; [apply length_fmap|]. intros i edge Hi Hno. simpl.
    rewrite list_lookup_fmap. fold (edges_at "source" s els). rewrite Hi. simpl.
    f_equal. apply find_value_none. intros el Hel.
    destruct (isNode el) eqn:En; [|done]. simpl. by apply Hno.
  - split; [apply length_fmap|]. intros i edge Hi Hno. simpl.
    rewrite list_lookup_fmap. fold (edges_at "target" s els). rewrite Hi. simpl.
    f_equal. apply find_value_none. intros el Hel.
    destruct (isNode el) eqn:En; [|done]. simpl. by apply Hno.
  - intros nodes edges v [H|H]; simpl in H;
      apply list_elem_of_fmap in H as (n & -> & Hn);
      exists n; split; try done; by eapply getConnectedElements_subset.
Qed.

(** The edge [A -> B] in a list that holds [A] but not [B]. *)
Lemma two_argument_shape_yields_undefined_witness :
  let A : obj := {[ "id" := VStr "A"; "position" := VObj ∅ ]} in
  let AB : obj := {[ "id" := VStr "e"; "source" := VStr "A"; "target" := VStr "B" ]} in
  getOutgoers (Two (ById "A") [A; AB]) !! 0 = Some VUndef
  ∧ getIncomers (Two (ById "B") [AB]) !! 0 = Some VUndef.
Proof.
  intros A AB.
  destruct (two_argument_shape_yields_undefined (ById "A") [A; AB]) as ((_ & H1) & _).
  destruct (two_argument_shape_yields_undefined (ById "B") [AB]) as (_ & (_ & H2) & _).
  split.
  - apply (H1 0 AB); [reflexivity|].
    intros el Hel Hn. apply elem_of_cons in Hel as [->|Hel]; [reflexivity|].
    apply list_elem_of_singleton in Hel. subst el. discriminate Hn.
  - apply (H2 0 AB); [reflexivity|].
    intros el Hel Hn. apply list_elem_of_singleton in Hel. subst el. discriminate Hn.
Defined.

End Queries.

(** * Ancestor selection *)

Section Ancestors.

Variable findNode : value → option obj.

Implicit Types (node parent a : obj) (l : list obj) (b : bool).

Lemma isParentSelected_sound fuel node b :
  isParentSelected fuel node findNode = Some b → parent_selected findNode node b.
Proof.
  revert node. induction fuel as [|fuel IH]; intros node H; [done|]. simpl in H.
  destruct (truthy (get node "parentNode")) eqn:Ep; simpl in H.
  - destruct (findNode (get node "parentNode")) as [parent|] eqn:Ef.
    + destruct (truthy (get parent "selected")) eqn:Es.
      * injection H as <-. by eapply ps_selected.
      * eapply ps_step; eauto.
    + injection H as <-. by apply ps_broken.
  - injection H as <-. by apply ps_root.
Qed.

Lemma isParentSelected_more_fuel fuel fuel' node b :
  (fuel ≤ fuel')%nat → isParentSelected fuel node findNode = Some b →
  isParentSelected fuel' node findNode = Some b.
Proof.
  revert fuel' node. induction fuel as [|fuel IH]; intros fuel' node Hle H; [done|].
  destruct fuel' as [|fuel']; [lia|]. simpl in *.
  destruct (negb (truthy (get node "parentNode"))); [done|].
  destruct (findNode (get node "parentNode")) as [parent|]; [|done].
  destruct (truthy (get parent "selected")); [done|]. apply IH; [lia|done].
Qed.

Lemma isParentSelected_complete node b :
  parent_selected findNode node b → ∃ fuel, isParentSelected fuel node findNode = Some b.
Proof.
  induction 1 as [node Hp|node Hp Hf|node parent Hp Hf Hs|node parent b Hp Hf Hs _ [fuel IH]].
  - exists 1. simpl. by rewrite Hp.
  - exists 1. simpl. by rewrite Hp, Hf.
  - exists 1. simpl. by rewrite Hp, Hf, Hs.
  - exists (S fuel). simpl. by rewrite Hp, Hf, Hs.
Qed.

Lemma last_cons_default (g : obj) l (d1 d2 : obj) :
  List.last (g :: l) d1 = List.last (g :: l) d2.
Proof. revert g. induction l as [|h l IH]; intros g; [done|]. apply (IH h). Qed.

(** C6 (amended): [isParentSelected] returns [true] as soon as an
    ancestor reached by [findNode(parentNode)] is selected, and [false]
    when the chain of unselected ancestors ends at a node without a
    parent identifier or with one [findNode] does not know; in both cases
    it returns within as many calls as the chain is long.  Those are the
    only calls that return. *)
Theorem isParentSelected_on_finite_chain node l :
  (∀ a, ancestors findNode node (l ++ [a]) → Forall unselected l →
        truthy (get a "selected") = true →
        ∀ fuel, (length l < fuel)%nat → isParentSelected fuel node findNode = Some true)
  ∧ (ancestors findNode node l → Forall unselected l →
     chain_ends findNode (List.last l node) →
     ∀ fuel, (length l < fuel)%nat → isParentSelected fuel node findNode = Some false)
  ∧ (∀ b, (∃ fuel, isParentSelected fuel node findNode = Some b)
          ↔ parent_selected findNode node b).
Proof.
  split; [|split].
  - revert node. induction l as [|p l IH]; intros node a Ha Hu Hs fuel Hf.
    + destruct fuel as [|fuel]; [simpl in Hf; lia|].
      inversion Ha as [|? ? ? Hp Hfind _]; subst. simpl. by rewrite Hp, Hfind, Hs.
    + destruct fuel as [|fuel]; [simpl in Hf; lia|].
      inversion Ha as [|? ? ? Hp Hfind Hrest]; subst.
      apply Forall_cons in Hu as [Hp1 Hu]. simpl. rewrite Hp, Hfind. simpl.
      unfold unselected in Hp1. rewrite Hp1.
      apply (IH p a Hrest Hu Hs). simpl in Hf. lia.
  - revert node. induction l as [|p l IH]; intros node Ha Hu He fuel Hf.
    + destruct fuel as [|fuel]; [simpl in Hf; lia|]. simpl in *.
      destruct He as [He|He]; [by rewrite He|].
      destruct (negb (truthy (get node "parentNode"))); [done|]. by rewrite He.
    + destruct fuel as [|fuel]; [simpl in Hf; lia|].
      inversion Ha as [|? ? ? Hp Hfind Hrest]; subst.
      apply Forall_cons in Hu as [Hp1 Hu]. simpl. rewrite Hp, Hfind. simpl.
      unfold unselected in Hp1. rewrite Hp1.
      apply (IH p Hrest Hu); [|simpl in Hf; lia].
      destruct l as [|g l]; [exact He|].
      rewrite (last_cons_default g l p node). exact He.
  - intros b. split; [intros [fuel H]; by eapply isParentSelected_sound|].
    apply isParentSelected_complete.
Qed.

End Ancestors.

(** [C] is a child of [B], [B] a child of [A], and [A] is selected. *)
Lemma isParentSelected_on_finite_chain_witness :
  let A : obj := {[ "id" := VStr "A"; "selected" := VBool true ]} in
  let B : obj := {[ "id" := VStr "B"; "parentNode" := VStr "A" ]} in
  let C : obj := {[ "id" := VStr "C"; "parentNode" := VStr "B" ]} in
  isParentSelected 2 C (findNode_in [A; B; C]) = Some true
  ∧ isParentSelected 1 A (findNode_in [A; B; C]) = Some false.
Proof.
  intros A B C. split.
  - destruct (isParentSelected_on_finite_chain (findNode_in [A; B; C]) C [B]) as [H _].
    apply (H A).
    + apply anc_cons; [reflexivity | reflexivity |].
      apply anc_cons; [reflexivity | reflexivity |]. apply anc_nil.
    + apply Forall_cons. split; [reflexivity | apply Forall_nil_2].
    + reflexivity.
    + simpl. lia.
  - destruct (isParentSelected_on_finite_chain (findNode_in [A; B; C]) A []) as (_ & H & _).
    apply H.
    + apply anc_nil.
    + apply Forall_nil_2.
    + left. reflexivity.
    + simpl. lia.
Defined.

(** C6, as stated, fails: when two unselected nodes name each other as
    parent, no depth of recursion gives an answer. *)
Lemma isParentSelected_cycle_never_returns :
  let A : obj := {[ "id" := VStr "A"; "parentNode" := VStr "B" ]} in
  let B : obj := {[ "id" := VStr "B"; "parentNode" := VStr "A" ]} in
  ¬ ∃ fuel b, isParentSelected fuel A (findNode_in [A; B]) = Some b.
Proof.
  intros A B (fuel & b & H).
  assert (∀ n, isParentSelected n A (findNode_in [A; B]) = None
               ∧ isParentSelected n B (findNode_in [A; B]) = None) as Hn.
  { induction n as [|n [IHA IHB]]; [done|]. split.
    - change (isParentSelected (S n) A (findNode_in [A; B]))
        with (isParentSelected n B (findNode_in [A; B])). exact IHB.
    - change (isParentSelected (S n) B (findNode_in [A; B]))
        with (isParentSelected n A (findNode_in [A; B])). exact IHA. }
  destruct (Hn fuel) as [HA _]. congruence.
Qed.

(** * Rectangle selection *)

Section NodesInside.

Import Geometry.

Implicit Types (nodes : list GraphNode) (node : GraphNode) (rect : Rect).

Lemma getNodesInside_elem nodes rect transform partially exclude node :
  node ∈ getNodesInside nodes rect transform partially exclude
  ↔ node ∈ nodes
    ∧ inside (paneRect rect (default (mkTransform 0 0 1) transform))
        (default false partially) (default false exclude) node = true.
Proof. unfold getNodesInside. by rewrite !list_elem_of_In, List.filter_In. Qed.

Lemma Qeq_bool_pos (q : Q) : (0 < q)%Q → Qeq_bool q 0 = false.
Proof.
  intros Hq. apply not_true_iff_false. intros E. apply Qeq_bool_iff in E.
  rewrite E in Hq. by apply Qlt_irrefl in Hq.
Qed.

Lemma measured_positive_initialized node :
  measured_positive node → notInitialized node = false ∧ ∃ a, area node = Some a ∧ (0 < a)%Q.
Proof.
  intros (w & h & Hd & Hw & Hh). unfold notInitialized, area, node_dimensions.
  rewrite Hd. simpl. split.
  - by rewrite !Qeq_bool_pos.
  - eexists. split; [done|]. by apply Qmult_lt_0_compat.
Qed.

Lemma covers_positive (ov : Z) (a : Q) :
  (0 < a)%Q → covers ov (Some a) = true → (0 < ov)%Z.
Proof.
  intros Ha Hc. simpl in Hc. apply Qle_bool_iff in Hc.
  rewrite Zlt_Qlt. change (inject_Z 0) with 0%Q. by eapply Qlt_le_trans.
Qed.

(** C7, as stated, fails: with [excludeNonSelectableNodes] set, an
    unmeasured node that is not selectable is left out. *)
Lemma getNodesInside_excludes_unmeasured_unselectable :
  let node := mkGraphNode None None None in
  notInitialized node = true
  ∧ getNodesInside [node] (mkRect 0 0 100 100) None None (Some true) = [].
Proof. split; by vm_compute. Qed.

(** C7 (amended): with [excludeNonSelectableNodes] set, a node that is
    not selectable is left out whatever its size.  Otherwise a node of
    the list with a zero or unmeasured side is in the result; a measured
    one is in the result, when [partially] is false, iff the overlap with
    the rectangle (taken to logical space) is at least its own area, and
    when [partially] is true iff the overlap is positive or at least its
    area, which for positive sides is iff the overlap is positive. *)
Theorem getNodesInside_selects nodes rect transform partially exclude node :
  (default false exclude = true → default false (selectable node) = false →
   node ∉ getNodesInside nodes rect transform partially exclude)
  ∧ (default false exclude = false ∨ selectable node = Some true →
     (notInitialized node = true →
      (node ∈ getNodesInside nodes rect transform partially exclude ↔ node ∈ nodes))
     ∧ (notInitialized node = false → default false partially = false →
        (node ∈ getNodesInside nodes rect transform partially exclude
         ↔ node ∈ nodes ∧ covers (overlap rect transform node) (area node) = true))
     ∧ (notInitialized node = false → default false partially = true →
        (node ∈ getNodesInside nodes rect transform partially exclude
         ↔ node ∈ nodes
           ∧ ((0 < overlap rect transform node)%Z
              ∨ covers (overlap rect transform node) (area node) = true)))
     ∧ (measured_positive node → default false partially = true →
        (node ∈ getNodesInside nodes rect transform partially exclude
         ↔ node ∈ nodes ∧ (0 < overlap rect transform node)%Z))).
Proof.
  split.
  - intros Hx Hs. rewrite getNodesInside_elem. unfold inside. rewrite Hx, Hs. simpl.
    intros [_ H]. discriminate H.
  - intros Hgate.
    assert (default false exclude && negb (default false (selectable node)) = false) as Hg.
    { destruct Hgate as [->| ->]; [done|]. simpl. apply andb_false_r. }
    assert (∀ part, inside (paneRect rect (default (mkTransform 0 0 1) transform))
                      part (default false exclude) node
                    = notInitialized node
                      || part && (0 <? overlap rect transform node)%Z
                      || covers (overlap rect transform node) (area node)) as Hin
      by (intros part; unfold inside; by rewrite Hg).
    split; [|split; [|split]].
    + intros Hn. rewrite getNodesInside_elem, Hin, Hn. simpl. tauto.
    + intros Hn Hp. rewrite getNodesInside_elem, Hin, Hn, Hp. simpl. tauto.
    + intros Hn Hp. rewrite getNodesInside_elem, Hin, Hn, Hp. simpl.
      rewrite orb_true_iff, Z.ltb_lt. tauto.
    + intros Hm Hp. destruct (measured_positive_initialized node Hm) as (Hn & a & Ha & Hpos).
      rewrite getNodesInside_elem, Hin, Hn, Hp, Ha. simpl.
      rewrite orb_true_iff, Z.ltb_lt. split; [|tauto].
      intros [? [?|Hc]]; [tauto|]. split; [done|]. by apply (covers_positive _ a).
Qed.

(** A 10 by 10 node at the origin against the rectangle from the origin
    to (5, 5): covered in part, not in full. *)
Lemma getNodesInside_selects_witness :
  let node := mkGraphNode (Some (mkXY 0 0)) (Some (mkDimensions (Some 10%Q) (Some 10%Q)))
                (Some true) in
  let rect := mkRect 0 0 5 5 in
  (node ∈ getNodesInside [node] rect None (Some true) None
   ↔ node ∈ [node] ∧ (0 < overlap rect None node)%Z)
  ∧ (node ∈ getNodesInside [node] rect None None None
     ↔ node ∈ [node] ∧ covers (overlap rect None node) (area node) = true).
Proof.
  intros node rect. split.
  - destruct (getNodesInside_selects [node] rect None (Some true) None node) as [_ H].
    destruct H as (_ & _ & _ & H); [left; reflexivity|].
    apply H; [|reflexivity].
    exists 10%Q, 10%Q. split; [reflexivity|]. split; reflexivity.
  - destruct (getNodesInside_selects [node] rect None None None node) as [_ H].
    destruct H as (_ & H & _); [left; reflexivity|].
    apply H; reflexivity.
Defined.

End NodesInside.

(** * Overlap, clamping and viewport transforms *)

Section GeometryFacts.

Import Geometry.

#[local] Open Scope Q_scope.

Implicit Types (a b : Rect) (p : XYPosition) (t : ViewportTransform).

Ltac q_order := unfold Qle, Qlt, Qeq; simpl; lia.

Lemma Qmax_0_nonneg (q : Q) : 0 <= Qmax 0 q.
Proof. apply Q.le_max_l. Qed.

Lemma Qceiling_0_iff_mult (u v : Q) : u == 0 ∨ v == 0 → Qceiling (u * v) = 0%Z.
Proof.
  intros H. assert (u * v == 0) as -> by (destruct H as [-> | ->]; ring).
  reflexivity.
Qed.

Lemma Qmax_0_nonpos (q : Q) : q <= 0 → Qmax 0 q == 0.
Proof. intros H. by apply Q.max_l. Qed.

(** X1: the overlap of two rectangles does not depend on their order. *)
Theorem getOverlappingArea_comm a b :
  getOverlappingArea a b = getOverlappingArea b a.
Proof.
  unfold getOverlappingArea. apply Qceiling_comp.
  rewrite (Q.min_comm (rect_x a + rect_width a)), (Q.max_comm (rect_x a)).
  rewrite (Q.min_comm (rect_y a + rect_height a)), (Q.max_comm (rect_y a)).
  reflexivity.
Qed.

(** X2: the overlap is never negative, and it is zero for two rectangles
    that are apart along an axis (touching sides included). *)
Theorem getOverlappingArea_apart a b :
  (0 <= getOverlappingArea a b)%Z
  ∧ (rect_apart a b → getOverlappingArea a b = 0%Z).
Proof.
  unfold getOverlappingArea. split.
  - change 0%Z with (Qceiling 0). apply Qceiling_resp_le.
    apply Qmult_le_0_compat; apply Qmax_0_nonneg.
  - intros H. apply Qceiling_0_iff_mult.
    destruct H as [H|[H|[H|H]]]; [left|left|right|right]; apply Qmax_0_nonpos.
    + pose proof (Q.le_min_l (rect_x a + rect_width a) (rect_x b + rect_width b)).
      pose proof (Q.le_max_r (rect_x a) (rect_x b)). lra.
    + pose proof (Q.le_min_r (rect_x a + rect_width a) (rect_x b + rect_width b)).
      pose proof (Q.le_max_l (rect_x a) (rect_x b)). lra.
    + pose proof (Q.le_min_l (rect_y a + rect_height a) (rect_y b + rect_height b)).
      pose proof (Q.le_max_r (rect_y a) (rect_y b)). lra.
    + pose proof (Q.le_min_r (rect_y a + rect_height a) (rect_y b + rect_height b)).
      pose proof (Q.le_max_l (rect_y a) (rect_y b)). lra.
Qed.

(** Two unit squares side by side. *)
Lemma getOverlappingArea_apart_witness :
  rect_apart (mkRect 0 0 1 1) (mkRect 1 0 1 1)
  ∧ getOverlappingArea (mkRect 0 0 1 1) (mkRect 1 0 1 1) = 0%Z.
Proof.
  assert (rect_apart (mkRect 0 0 1 1) (mkRect 1 0 1 1)) as H by (left; q_order).
  split; [exact H|].
  apply (getOverlappingArea_apart (mkRect 0 0 1 1) (mkRect 1 0 1 1)). exact H.
Defined.









Lemma clamp_le_max (val : Q) (min max : option Q) :
  clamp val min max <= default 1 max.
Proof. apply Q.le_min_r. Qed.

Lemma clamp_ge_min (val : Q) (min max : option Q) :
  default 0 min <= default 1 max → default 0 min <= clamp val min max.
Proof. intros H. apply Q.min_glb; [apply Q.le_max_r | done]. Qed.

Lemma clamp_fixed (val : Q) (min max : option Q) :
  default 0 min <= val <= default 1 max → clamp val min max == val.
Proof.
  intros [H1 H2]. unfold clamp. rewrite (Q.max_l _ _ H1). by apply Q.min_l.
Qed.

(** X5: [clamp] never exceeds [max]; with [min <= max] it lands in
    [[min, max]], leaves a value of that range as it is and is
    idempotent; with [max < min] it returns [max]. *)
Theorem clamp_range (val : Q) (min max : option Q) :
  clamp val min max <= default 1 max
  ∧ (default 0 min <= default 1 max →
     default 0 min <= clamp val min max
     ∧ (default 0 min <= val <= default 1 max → clamp val min max == val)
     ∧ clamp (clamp val min max) min max == clamp val min max)
  ∧ (default 1 max < default 0 min → clamp val min max == default 1 max).
Proof.
  split; [apply clamp_le_max|]. split.
  - intros Hle. split; [by apply clamp_ge_min|]. split; [apply clamp_fixed|].
    apply clamp_fixed. split; [by apply clamp_ge_min | apply clamp_le_max].
  - intros Hlt. unfold clamp. apply Q.min_r.
    pose proof (Q.le_max_r val (default 0 min)). lra.
Qed.

(** The default range [[0, 1]] and an inverted one. *)
Lemma clamp_range_witness :
  0 <= clamp 5 None None ∧ clamp 5 None None <= 1
  ∧ clamp (1 # 2) None None == 1 # 2
  ∧ clamp 5 (Some 3) (Some 2) == 2.
Proof.
  destruct (clamp_range 5 None None) as (H1 & H2 & _).
  destruct H2 as (H2 & _); [q_order|].
  destruct (clamp_range (1 # 2) None None) as (_ & H3 & _).
  destruct H3 as (_ & H3 & _); [q_order|].
  destruct (clamp_range 5 (Some 3) (Some 2)) as (_ & _ & H4).
  split; [exact H2|]. split; [exact H1|]. split.
  - apply H3. split; q_order.
  - apply H4. q_order.
Defined.

(** X6: for an extent whose corners are in order, [clampPosition] lands
    inside the extent and leaves a position already inside unchanged. *)
Theorem clampPosition_within p (extent : CoordinateExtent) :
  fst (fst extent) <= fst (snd extent) → snd (fst extent) <= snd (snd extent) →
  fst (fst extent) <= pos_x (clampPosition p extent) <= fst (snd extent)
  ∧ snd (fst extent) <= pos_y (clampPosition p extent) <= snd (snd extent)
  ∧ (fst (fst extent) <= pos_x p <= fst (snd extent) →
     snd (fst extent) <= pos_y p <= snd (snd extent) →
     same_point (clampPosition p extent) p).
Proof.
  intros Hx Hy. unfold clampPosition, same_point. simpl.
  pose proof (clamp_le_max (pos_x p) (Some (fst (fst extent))) (Some (fst (snd extent))))
    as Hx1.
  pose proof (clamp_le_max (pos_y p) (Some (snd (fst extent))) (Some (snd (snd extent))))
    as Hy1.
  pose proof (clamp_ge_min (pos_x p) (Some (fst (fst extent))) (Some (fst (snd extent))) Hx)
    as Hx0.
  pose proof (clamp_ge_min (pos_y p) (Some (snd (fst extent))) (Some (snd (snd extent))) Hy)
    as Hy0.
  repeat split; try done.
  - by apply clamp_fixed.
  - by apply clamp_fixed.
Qed.

(** The point (7, -2) against the extent from the origin to (5, 5). *)
Lemma clampPosition_within_witness :
  0 <= pos_x (clampPosition (mkXY 7 (-2)) ((0, 0), (5, 5))) <= 5
  ∧ 0 <= pos_y (clampPosition (mkXY 7 (-2)) ((0, 0), (5, 5))) <= 5.
Proof.
  destruct (clampPosition_within (mkXY 7 (-2)) ((0, 0), (5, 5))) as (H1 & H2 & _).
  - q_order.
  - q_order.
  - split; [exact H1 | exact H2].
Defined.







(** X9: when neither side of the padded bounds is zero and [minZoom <=
    maxZoom], the zoom [getTransformForBounds] returns lies within
    [[minZoom, maxZoom]]. *)
Theorem getTransformForBounds_zoom bounds (width height minZoom maxZoom : Q) padding offset :
  ¬ rect_width bounds * (1 + default (1 # 10) padding) == 0 →
  ¬ rect_height bounds * (1 + default (1 # 10) padding) == 0 →
  minZoom <= maxZoom →
  minZoom <= vt_zoom (getTransformForBounds bounds width height minZoom maxZoom padding offset)
  ∧ vt_zoom (getTransformForBounds bounds width height minZoom maxZoom padding offset)
    <= maxZoom.
Proof.
  intros _ _ H. unfold getTransformForBounds. simpl. split.
  - by apply (clamp_ge_min _ (Some minZoom) (Some maxZoom)).
  - apply (clamp_le_max _ (Some minZoom) (Some maxZoom)).
Qed.

(** Bounds of 100 by 50 in a viewport of 800 by 600, zoom kept in
    [[1/2, 2]]. *)
Lemma getTransformForBounds_zoom_witness :
  (1 # 2) <= vt_zoom (getTransformForBounds (mkRect 0 0 100 50) 800 600 (1 # 2) 2 None None)
  ∧ vt_zoom (getTransformForBounds (mkRect 0 0 100 50) 800 600 (1 # 2) 2 None None) <= 2.
Proof.
  apply (getTransformForBounds_zoom (mkRect 0 0 100 50) 800 600 (1 # 2) 2 None None);
    q_order.
Defined.




End GeometryFacts.

(** * Bounding boxes *)

Section BoundsFacts.

Import Bounds.

#[local] Open Scope Q_scope.

Implicit Types (a b c : num) (r : Rect) (bx : Box).

Ltac num_cases :=
  repeat match goal with n : num |- _ => destruct n end; simpl in *; try done; try tauto.



Lemma num_min_glb a b c :
  a ≠ NaN → b ≠ NaN →
  num_le (num_min a b) a ∧ num_le (num_min a b) b
  ∧ (num_le c a → num_le c b → num_le c (num_min a b))
  ∧ num_min a b ≠ NaN.
Proof.
  destruct a as [| |p|], b as [| |q|], c as [| |u|]; simpl; intros Ha Hb;
    repeat split; try done; auto using Qle_refl, Q.le_min_l, Q.le_min_r, Q.min_glb.
Qed.

Lemma num_max_lub a b c :
  a ≠ NaN → b ≠ NaN →
  num_le a (num_max a b) ∧ num_le b (num_max a b)
  ∧ (num_le a c → num_le b c → num_le (num_max a b) c)
  ∧ num_max a b ≠ NaN.
Proof.
  destruct a as [| |p|], b as [| |q|], c as [| |u|]; simpl; intros Ha Hb;
    repeat split; try done; auto using Qle_refl, Q.le_max_l, Q.le_max_r, Q.max_lub.
Qed.


Lemma getBoundsOfBoxes_defined bx1 bx2 :
  box_defined bx1 → box_defined bx2 → box_defined (getBoundsOfBoxes bx1 bx2).
Proof.
  intros (D1 & D2 & D3 & D4) (E1 & E2 & E3 & E4).
  repeat split; first [by apply (num_min_glb _ _ NaN) | by apply (num_max_lub _ _ NaN)].
Qed.

Lemma getBoundsOfBoxes_encloses bx1 bx2 :
  box_defined bx1 → box_defined bx2 →
  encloses (getBoundsOfBoxes bx1 bx2) bx1 ∧ encloses (getBoundsOfBoxes bx1 bx2) bx2.
Proof.
  intros (D1 & D2 & D3 & D4) (E1 & E2 & E3 & E4).
  split; repeat split;
    first [by apply (num_min_glb _ _ NaN) | by apply (num_max_lub _ _ NaN)].
Qed.

Lemma getBoundsOfBoxes_within bx1 bx2 bx :
  box_defined bx1 → box_defined bx2 →
  encloses bx bx1 → encloses bx bx2 → encloses bx (getBoundsOfBoxes bx1 bx2).
Proof.
  intros (D1 & D2 & D3 & D4) (E1 & E2 & E3 & E4) (A1 & A2 & A3 & A4) (B1 & B2 & B3 & B4).
  repeat split; first [by apply num_min_glb | by apply num_max_lub].
Qed.

(** X12: for two boxes without NaN, [getBoundsOfBoxes] gives a box
    without NaN that encloses both and that every box enclosing both
    encloses; the box of infinities [getRectOfNodes] starts from is
    neutral on either side. *)
Theorem getBoundsOfBoxes_least bx1 bx2 :
  box_defined bx1 → box_defined bx2 →
  box_defined (getBoundsOfBoxes bx1 bx2)
  ∧ encloses (getBoundsOfBoxes bx1 bx2) bx1
  ∧ encloses (getBoundsOfBoxes bx1 bx2) bx2
  ∧ (∀ bx, encloses bx bx1 → encloses bx bx2 → encloses bx (getBoundsOfBoxes bx1 bx2))
  ∧ getBoundsOfBoxes empty_box bx1 = bx1
  ∧ getBoundsOfBoxes bx1 empty_box = bx1.
Proof.
  intros D E. split; [by apply getBoundsOfBoxes_defined|].
  split; [by apply getBoundsOfBoxes_encloses|].
  split; [by apply getBoundsOfBoxes_encloses|].
  split; [intros bx; by apply getBoundsOfBoxes_within|].
  destruct D as (D1 & D2 & D3 & D4). destruct bx1 as [x1 y1 x2 y2]. simpl in *.
  unfold getBoundsOfBoxes. simpl. split; f_equal; by num_cases.
Qed.

(** The unit box and the box from (2, 2) to (3, 5). *)
Lemma getBoundsOfBoxes_least_witness :
  let b1 := mkBox (Fin 0) (Fin 0) (Fin 1) (Fin 1) in
  let b2 := mkBox (Fin 2) (Fin 2) (Fin 3) (Fin 5) in
  encloses (getBoundsOfBoxes b1 b2) b1 ∧ encloses (getBoundsOfBoxes b1 b2) b2
  ∧ getBoundsOfBoxes empty_box b1 = b1.
Proof.
  intros b1 b2.
  destruct (getBoundsOfBoxes_least b1 b2) as (_ & H1 & H2 & _ & H3 & _).
  - repeat split; discriminate.
  - repeat split; discriminate.
  - split; [exact H1|]. split; [exact H2 | exact H3].
Defined.





















End BoundsFacts.

(** * Connected nodes and edges *)

Section QueryFacts.

Implicit Types (s : subject) (els nodes edges : list obj) (v x : value) (ids : list value).

Lemma strict_eq_eq v x : strict_eq v x = true → v = x.
Proof.
  destruct v, x; simpl; try done; intros H.
  - apply bool_decide_eq_true in H. by subst.
  - apply Z.eqb_eq in H. by subst.
  - apply String.eqb_eq in H. by subst.
Qed.

Lemma strict_eq_sym v x : strict_eq v x = strict_eq x v.
Proof.
  destruct v, x; simpl; try done.
  - apply bool_decide_ext. split; by intros ->.
  - apply Z.eqb_sym.
  - apply String.eqb_sym.
Qed.

Lemma set_has_app ids ids' v : set_has (ids ++ ids') v = set_has ids v || set_has ids' v.
Proof. unfold set_has. apply existsb_app. Qed.

Lemma set_has_add ids x v : set_has (set_add x ids) v = set_has ids v || strict_eq v x.
Proof.
  unfold set_add. destruct (set_has ids x) eqn:E.
  - destruct (strict_eq v x) eqn:Ev; [|by rewrite orb_false_r].
    apply strict_eq_eq in Ev. subst v. by rewrite E.
  - rewrite set_has_app. simpl. by rewrite orb_false_r.
Qed.

(** A [Set] filled under a condition has a value exactly when a
    qualifying item contributed it. *)
Lemma set_has_foldl {A} (c : A → bool) (g : A → value) (l : list A) : ∀ ids v,
  set_has (foldl (fun acc a => if c a then set_add (g a) acc else acc) ids l) v
  = set_has ids v || existsb (fun a => c a && strict_eq v (g a)) l.
Proof.
  induction l as [|a l IH]; intros ids v; simpl; [by rewrite orb_false_r|].
  rewrite IH. destruct (c a); simpl; [|done].
  by rewrite set_has_add, orb_assoc.
Qed.

Lemma filter_ext_all {A} (f g : A → bool) (l : list A) :
  (∀ a, f a = g a) → List.filter f l = List.filter g l.
Proof. intros H. apply List.filter_ext. exact H. Qed.

Lemma getConnectedElements_filter s nodes edges dir :
  getConnectedElements s nodes edges dir
  = List.filter
      (fun n => linked edges
                  (dir_key match dir with Source => Target | Target => Source end)
                  (dir_key dir) (subject_id s) (get n "id"))
      nodes.
Proof.
  unfold getConnectedElements, linked. apply filter_ext_all. intros n.
  by rewrite (set_has_foldl
                (fun e => strict_eq (get e (dir_key match dir with
                                                    | Source => Target
                                                    | Target => Source
                                                    end)) (subject_id s))
                (fun e => get e (dir_key dir))).
Qed.

(** X15: in the three-argument shape [getOutgoers] returns the nodes of
    the node list, in its order and each as often as it is listed, whose
    [id] is the target of some edge with the subject as source;
    [getIncomers] likewise with source and target exchanged.  A node
    reached by several edges is not repeated. *)
Theorem three_argument_shape_filters_nodes s nodes edges :
  getOutgoers (Three s nodes edges)
  = VObj <$> List.filter
               (fun n => linked edges "source" "target" (subject_id s) (get n "id")) nodes
  ∧ getIncomers (Three s nodes edges)
    = VObj <$> List.filter
                 (fun n => linked edges "target" "source" (subject_id s) (get n "id")) nodes.
Proof.
  split; simpl; f_equal; unfold getConnectedElements, linked;
    apply filter_ext_all; intros n.
  - by rewrite (set_has_foldl (fun e => strict_eq (get e "source") (subject_id s))
                  (fun e => get e "target")).
  - by rewrite (set_has_foldl (fun e => strict_eq (get e "target") (subject_id s))
                  (fun e => get e "source")).
Qed.

Lemma find_value_obj (q : obj → bool) els n :
  find_value q els = VObj n → n ∈ els ∧ q n = true.
Proof.
  unfold find_value. destruct (List.find q els) as [m|] eqn:E; [|done].
  intros [= <-]. apply List.find_some in E as [Hin Hq]. by rewrite list_elem_of_In.
Qed.

(** X16: every node the two-argument shape returns for a mixed list is
    also returned by the three-argument shape for the nodes and the edges
    of that list. *)
Theorem two_argument_shape_within_three s els n :
  (VObj n ∈ getOutgoers (Two s els) →
   VObj n ∈ getOutgoers (Three s (List.filter isNode els) (List.filter isEdge els)))
  ∧ (VObj n ∈ getIncomers (Two s els) →
     VObj n ∈ getIncomers (Three s (List.filter isNode els) (List.filter isEdge els))).
Proof.
  change (getOutgoers (Three s (List.filter isNode els) (List.filter isEdge els)))
    with (VObj <$> getConnectedElements s (List.filter isNode els)
                     (List.filter isEdge els) Target).
  change (getIncomers (Three s (List.filter isNode els) (List.filter isEdge els)))
    with (VObj <$> getConnectedElements s (List.filter isNode els)
                     (List.filter isEdge els) Source).
  rewrite !getConnectedElements_filter. cbn [dir_key].
  split; intros H; simpl in H;
    apply list_elem_of_fmap in H as (edge & Hv & He);
    apply list_elem_of_In, List.filter_In in He as [He Hc];
    apply andb_true_iff in Hc as [Hedge Hs];
    symmetry in Hv; apply find_value_obj in Hv as [Hn Hq];
    apply andb_true_iff in Hq as [Hnode Hid];
    apply list_elem_of_fmap; exists n; (split; [done|]);
    apply list_elem_of_In, List.filter_In;
    (split; [apply List.filter_In; by rewrite <- list_elem_of_In|]);
    unfold linked; apply existsb_exists; exists edge;
    (split; [apply List.filter_In; by split|]); by rewrite Hs, Hid.
Qed.

(** The nodes [A], [B] and the edge [A -> B]. *)
Lemma two_argument_shape_within_three_witness :
  let A : obj := {[ "id" := VStr "A"; "position" := VObj ∅ ]} in
  let B : obj := {[ "id" := VStr "B"; "position" := VObj ∅ ]} in
  let AB : obj := {[ "id" := VStr "e"; "source" := VStr "A"; "target" := VStr "B" ]} in
  VObj B ∈ getOutgoers (Three (ById "A") (List.filter isNode [A; B; AB])
                          (List.filter isEdge [A; B; AB]))
  ∧ VObj A ∈ getIncomers (Three (ById "B") (List.filter isNode [A; B; AB])
                            (List.filter isEdge [A; B; AB])).
Proof.
  intros A B AB.
  destruct (two_argument_shape_within_three (ById "A") [A; B; AB] B) as [H1 _].
  destruct (two_argument_shape_within_three (ById "B") [A; B; AB] A) as [_ H2].
  split.
  - apply H1. vm_compute. apply list_elem_of_here.
  - apply H2. vm_compute. apply list_elem_of_here.
Defined.

Lemma set_has_ids {A} (g : A → value) (l : list A) v :
  set_has (foldl (fun acc a => set_add (g a) acc) [] l) v
  = existsb (fun a => strict_eq v (g a)) l.
Proof.
  by rewrite (set_has_foldl (fun _ => true) g l [] v).
Qed.

(** X17: [getConnectedEdges] returns, in their order, the edges whose
    source or target is the [id] of a listed node; an empty node list
    gives no edge; an identifier gives what the one-node list of that
    identifier gives. *)
Theorem getConnectedEdges_filter nodes edges id :
  getConnectedEdges (NodeList nodes) edges
  = List.filter
      (fun e => listed (ByNode <$> nodes) (get e "source")
                || listed (ByNode <$> nodes) (get e "target"))
      edges
  ∧ getConnectedEdges (NodeList []) edges = []
  ∧ getConnectedEdges (NodeId id) edges
    = getConnectedEdges (NodeList [ {[ "id" := VStr id ]} ]) edges.
Proof.
  assert (∀ v, listed (ByNode <$> nodes) v
               = existsb (fun n => strict_eq v (get n "id")) nodes) as Hl.
  { intros v. unfold listed. induction nodes as [|n nodes IH]; [done|].
    csimpl. by rewrite IH. }
  split; [|split].
  - unfold getConnectedEdges. destruct nodes as [|n nodes].
    + simpl. induction edges as [|e edges IH]; [done|]. simpl. exact IH.
    + change (1 <=? length (n :: nodes))%nat with true. cbv iota.
      apply filter_ext_all. intros e. by rewrite !set_has_ids, !Hl.
  - unfold getConnectedEdges. simpl. induction edges as [|e edges IH]; [done|]. exact IH.
  - reflexivity.
Qed.

(** X18: [getConnectedNodes] returns, in their order, the listed nodes
    that some edge joins to a listed node (possibly to itself): it never
    returns a node from outside the list, and a listed node whose edges
    all lead outside the list is left out. *)
Theorem getConnectedNodes_filter (nodes : list subject) edges :
  getConnectedNodes nodes edges
  = List.filter
      (fun n =>
         existsb (fun e =>
                    (listed nodes (get e "source")
                     && strict_eq (subject_id n) (get e "target"))
                    || (listed nodes (get e "target")
                        && strict_eq (subject_id n) (get e "source")))
                 edges)
      nodes.
Proof.
  unfold getConnectedNodes. apply filter_ext_all. intros n.
  set (ids := foldl _ [] nodes).
  assert (∀ v, set_has ids v = listed nodes v) as Hids by (intros v; apply set_has_ids).
  generalize (subject_id n). intros v.
  assert (∀ acc,
    set_has
      (foldl (fun acc edge =>
                let acc := if set_has ids (get edge "source")
                           then set_add (get edge "target") acc else acc in
                if set_has ids (get edge "target")
                then set_add (get edge "source") acc else acc) acc edges) v
    = set_has acc v
      || existsb (fun e =>
                    (listed nodes (get e "source") && strict_eq v (get e "target"))
                    || (listed nodes (get e "target") && strict_eq v (get e "source")))
                 edges) as H.
  { induction edges as [|e edges IH]; intros acc; simpl; [by rewrite orb_false_r|].
    rewrite IH, <- !Hids.
    destruct (set_has ids (get e "source")), (set_has ids (get e "target")); simpl;
      rewrite ?set_has_add;
      destruct (set_has acc v), (strict_eq v (get e "target")),
        (strict_eq v (get e "source")); done. }
  by rewrite H.
Qed.

End QueryFacts.

(** * What the mutations keep *)

Section MutationFacts.

Implicit Types (p e el : obj) (w : world) (d : option obj) (v x : value).

Lemma handle_test_same (a b x : value) :
  same_handle a b →
  strict_eq x a || (negb (truthy x) && negb (truthy a))
  = strict_eq x b || (negb (truthy x) && negb (truthy b)).
Proof.
  intros [->|[Ha Hb]]; [done|]. rewrite Ha, Hb. simpl. rewrite !andb_true_r.
  destruct (truthy x) eqn:Hx; simpl; [|by rewrite !orb_true_r].
  rewrite !orb_false_r.
  destruct (strict_eq x a) eqn:E1.
  { apply strict_eq_eq in E1. congruence. }
  destruct (strict_eq x b) eqn:E2; [|done].
  apply strict_eq_eq in E2. congruence.
Qed.

(** X19: [connectionExists] reads only the source, the target and the
    two handles of the edge it is given, and takes an absent,
    [undefined], [null] or empty handle for the same thing: two edges
    that agree on their endpoints and whose handles are equal or both
    empty get the same answer on every collection. *)
Theorem connectionExists_empty_handles (edge edge' : obj) (els : list obj) :
  get edge "source" = get edge' "source" →
  get edge "target" = get edge' "target" →
  same_handle (get edge "sourceHandle") (get edge' "sourceHandle") →
  same_handle (get edge "targetHandle") (get edge' "targetHandle") →
  connectionExists edge els = connectionExists edge' els.
Proof.
  intros Hs Ht Hsh Hth. unfold connectionExists.
  induction els as [|el els IH]; [done|]. simpl. rewrite IH. f_equal.
  unfold same_connection. rewrite Hs, Ht.
  by rewrite (handle_test_same _ _ _ Hsh), (handle_test_same _ _ _ Hth).
Qed.

(** A [null] source handle against an absent one. *)
Lemma connectionExists_empty_handles_witness :
  let e : obj := {[ "id" := VStr "e"; "source" := VStr "A"; "target" := VStr "B";
                    "sourceHandle" := VStr "" ]} in
  connectionExists {[ "source" := VStr "A"; "target" := VStr "B"; "sourceHandle" := VNull ]} [e]
  = connectionExists {[ "source" := VStr "A"; "target" := VStr "B" ]} [e].
Proof.
  intros e. apply connectionExists_empty_handles.
  - reflexivity.
  - reflexivity.
  - right. split; reflexivity.
  - left. reflexivity.
Defined.

(** X20: whenever [addEdge] returns, it returns the array it was given,
    holding what it held, in the same order, followed by at most one new
    element.  The new element is the normalized edge, which no element
    held before matches as a connection; its [id] is a string, the one
    [getEdgeId] derives when the parameters have no [id]. *)
Theorem addEdge_only_appends p d w r w' :
  addEdge p d w = Some (r, w') →
  r = InputArray
  ∧ (elements w' = elements w
     ∨ ∃ e, elements w' = (elements w ++ [e])%list
            ∧ warnings w' = warnings w
            ∧ parseEdge (with_id p) None d = Some e
            ∧ isEdge e = true
            ∧ e !! "id" = Some (VStr (template (get (with_id p) "id")))
            ∧ (has p "id" = false → e !! "id" = Some (VStr (getEdgeId p)))
            ∧ connectionExists e (elements w) = false).
Proof.
  unfold addEdge. fold (with_id p).
  destruct (truthy (get p "source")) eqn:Hs; simpl; [|intros [= <- <-]; by split; [|left]].
  destruct (truthy (get p "target")) eqn:Ht; simpl; [|intros [= <- <-]; by split; [|left]].
  destruct (parseEdge (with_id p) None d) as [e|] eqn:He; simpl; [|done].
  destruct (connectionExists e (elements w)) eqn:Hc; intros [= <- <-]; (split; [done|]);
    [by left|].
  right. exists e. simpl. repeat split; try done.
  - unfold parseEdge in He.
    destruct (toString (get (with_id p) "id")) as [i|] eqn:Ei; [|done].
    destruct (toString (get (with_id p) "source")) as [so|] eqn:Eso; [|done].
    destruct (toString (get (with_id p) "target")) as [ta|] eqn:Eta; [|done].
    simpl in He. injection He as <-.
    assert (∀ k, k ≠ "id" → truthy (get p k) = true → is_Some (with_id p !! k)) as Hk.
    { intros k Hne Hk. rewrite with_id_lookup_ne by done.
      unfold get in Hk. destruct (p !! k); [by eexists|done]. }
    unfold isEdge. rewrite !andb_true_iff, !has_true. split; [split|].
    + eexists. apply assign_lookup_last, lookup_singleton_eq.
    + destruct (Hk "source") as [x Hx]; [done..|]. eexists.
      eapply assign_lookup_source; [by apply lookup_singleton_ne|exact Hx].
    + destruct (Hk "target") as [x Hx]; [done..|]. eexists.
      eapply assign_lookup_source; [by apply lookup_singleton_ne|exact Hx].
  - unfold parseEdge in He.
    destruct (toString (get (with_id p) "id")) as [i|] eqn:Ei; [|done].
    destruct (toString (get (with_id p) "source")); [|done].
    destruct (toString (get (with_id p) "target")); [|done].
    simpl in He. injection He as <-.
    unfold toString in Ei. destruct (nullish (get (with_id p) "id")); [done|].
    injection Ei as <-. apply assign_lookup_last, lookup_singleton_eq.
  - intros Hid. unfold parseEdge in He.
    destruct (toString (get (with_id p) "id")) as [i|] eqn:Ei; [|done].
    destruct (toString (get (with_id p) "source")); [|done].
    destruct (toString (get (with_id p) "target")); [|done].
    simpl in He. injection He as <-.
    assert (get (with_id p) "id" = VStr (getEdgeId p)) as Hg.
    { unfold with_id, isEdge. rewrite Hid. simpl. unfold get. by rewrite lookup_insert_eq. }
    rewrite Hg in Ei. injection Ei as <-. apply assign_lookup_last, lookup_singleton_eq.
Qed.

(** The connection [A -> B] added to a collection that holds node [A]. *)
Lemma addEdge_only_appends_witness :
  let A : obj := {[ "id" := VStr "A"; "position" := VObj ∅ ]} in
  let p : obj := {[ "source" := VStr "A"; "target" := VStr "B" ]} in
  fst <$> addEdge p None (World [A] []) = Some InputArray.
Proof.
  intros A p.
  destruct (addEdge p None (World [A] [])) as [[r w']|] eqn:E.
  - simpl. f_equal. apply (addEdge_only_appends p None (World [A] []) r w' E).
  - vm_compute in E. discriminate E.
Defined.

(** An edge [A -> B] moved to [A -> C] in a collection that already has
    an edge with the identifier the move derives. *)
Lemma updateEdge_replaces_witness :
  let old : obj := {[ "id" := VStr "e1"; "source" := VStr "A"; "target" := VStr "B" ]} in
  let third : obj :=
    {[ "id" := VStr "vueflow__edge-A-C"; "source" := VStr "X"; "target" := VStr "Y" ]} in
  let new : obj := {[ "source" := VStr "A"; "target" := VStr "C" ]} in
  ∃ r w', updateEdge old new (World [old; third] []) = Some (r, w')
          ∧ ids (contents w' r) = [VStr "vueflow__edge-A-C"; VStr "vueflow__edge-A-C"]
          ∧ length (elements w') = 2%nat.
Proof.
  intros old third new.
  destruct (updateEdge_replaces old new (World [old; third] []) 0)
    as (r & w' & H & Hc & He & _); [reflexivity..|].
  exists r, w'. split; [exact H|]. split.
  - rewrite Hc. reflexivity.
  - rewrite He. reflexivity.
Defined.

End MutationFacts.

(** * Normalizing twice; the instance registry *)

Section NormalizerFacts.

Implicit Types (raw prev e : obj) (existing defaults : option obj).

Lemma parseEdge_initialState_None raw raw' ex ex' defaults i i' s s' t t' k :
  parseEdge_initialState raw ex defaults i s t !! k = None →
  parseEdge_initialState raw' ex' defaults i' s' t' !! k = None.
Proof.
  unfold parseEdge_initialState. rewrite !lookup_union_None.
  intros [Hd Hb]. split; [done|].
  apply not_elem_of_list_to_map in Hb. apply not_elem_of_list_to_map. exact Hb.
Qed.

Lemma parseNode_initialState_None raw raw' i i' k :
  parseNode_initialState raw i !! k = None → parseNode_initialState raw' i' !! k = None.
Proof.
  unfold parseNode_initialState. intros Hb.
  apply not_elem_of_list_to_map in Hb. apply not_elem_of_list_to_map. exact Hb.
Qed.

Lemma toString_Some_inv (v : value) i :
  toString v = Some i → nullish v = false ∧ i = template v.
Proof. unfold toString. destruct (nullish v); [done|]. by intros [= <-]. Qed.

Lemma nullish_lookup (o : obj) k : nullish (get o k) = false → o !! k = Some (get o k).
Proof. intros H. apply get_defined_lookup. intros E. by rewrite E in H. Qed.

(** X22: normalizing a normalized edge changes nothing: an edge
    [parseEdge] returned, parsed again onto itself, comes back as it is,
    and so does an edge parsed without a previous entity when it is
    parsed again without one under the same defaults. *)
Theorem parseEdge_idempotent raw existing defaults e :
  parseEdge raw existing defaults = Some e →
  parseEdge e (Some e) defaults = Some e
  ∧ (existing = None → parseEdge e None defaults = Some e).
Proof.
  intros H. unfold parseEdge in H.
  destruct (toString (get raw "id")) as [i|] eqn:Ei; [|done].
  destruct (toString (get raw "source")) as [so|] eqn:Eso; [|done].
  destruct (toString (get raw "target")) as [ta|] eqn:Eta; [|done].
  simpl in H. injection H as He.
  apply toString_Some_inv in Eso as [Hso _], Eta as [Hta _].
  assert (e !! "id" = Some (VStr i)) as Lid
    by (rewrite <- He; apply assign_lookup_last, lookup_singleton_eq).
  assert (e !! "source" = Some (get raw "source")) as Lso.
  { rewrite <- He. eapply assign_lookup_source; [by apply lookup_singleton_ne|].
    by apply nullish_lookup. }
  assert (e !! "target" = Some (get raw "target")) as Lta.
  { rewrite <- He. eapply assign_lookup_source; [by apply lookup_singleton_ne|].
    by apply nullish_lookup. }
  assert (∀ existing', parseEdge e existing' defaults
            = Some (assign
                      (default (parseEdge_initialState e existing' defaults i
                                  (template (get raw "source")) (template (get raw "target")))
                               existing')
                      e {[ "id" := VStr i ]})) as Hp.
  { intros ex. unfold parseEdge, toString.
    rewrite (get_lookup_Some _ _ _ Lid), (get_lookup_Some _ _ _ Lso),
      (get_lookup_Some _ _ _ Lta), Hso, Hta. done. }
  rewrite !Hp.
  assert (∀ target k, (∀ k', e !! k' = None → target !! k' = None) →
            assign target e {[ "id" := VStr i ]} !! k = e !! k) as Hk.
  { intros target k Ht. unfold assign. rewrite !lookup_union.
    destruct (decide (k = "id")) as [->|Hid].
    { rewrite lookup_singleton_eq, Lid. by destruct (target !! "id"). }
    rewrite lookup_singleton_ne by done.
    destruct (e !! k) as [x|] eqn:Ek; [by destruct (target !! k)|].
    by rewrite (Ht k Ek). }
  split.
  - f_equal. apply map_eq. intros k. by apply Hk.
  - intros ->. f_equal. apply map_eq. intros k. apply Hk. intros k' Ek. simpl.
    rewrite <- He in Ek. unfold assign in Ek. simpl in Ek.
    rewrite !lookup_union_None in Ek. destruct Ek as (_ & _ & Ek).
    exact (parseEdge_initialState_None _ _ _ _ _ _ _ _ _ _ _ _ Ek).
Qed.

(** The connection [A -> B] with a label, normalized twice. *)
Lemma parseEdge_idempotent_witness :
  let raw : obj :=
    {[ "id" := VNum 1; "source" := VStr "A"; "target" := VStr "B"; "label" := VStr "l" ]} in
  (e ← parseEdge raw None None; parseEdge e None None) = parseEdge raw None None
  ∧ is_Some (parseEdge raw None None).
Proof.
  intros raw.
  pose proof (parseEdge_Some raw None None eq_refl eq_refl eq_refl) as E.
  destruct (parseEdge_idempotent raw None None _ E) as [_ H].
  rewrite E. split; [exact (H eq_refl) | by eexists].
Defined.

(** X23: normalizing a normalized node changes nothing: a node
    [parseNode] returned, parsed again onto itself with the same parent,
    comes back as it is, and so does a node parsed without a previous
    entity when it is parsed again without one. *)
Theorem parseNode_idempotent raw existing parentNode e :
  parseNode raw existing parentNode = Some e →
  parseNode e (Some e) parentNode = Some e
  ∧ (existing = None → parseNode e None parentNode = Some e).
Proof.
  intros H. unfold parseNode in H.
  destruct (toString (get raw "id")) as [i|] eqn:Ei; [|done].
  simpl in H. injection H as He.
  assert (e !! "id" = Some (VStr i)) as Lid
    by (rewrite <- He; apply assign_lookup_last, lookup_insert_eq).
  assert (e !! "parentNode" = Some parentNode) as Lp.
  { rewrite <- He. apply assign_lookup_last.
    by rewrite lookup_insert_ne, lookup_singleton_eq. }
  assert (∀ existing', parseNode e existing' parentNode
            = Some (assign (default (parseNode_initialState e i) existing') e
                      {[ "id" := VStr i; "parentNode" := parentNode ]})) as Hp.
  { intros ex. unfold parseNode, toString. by rewrite (get_lookup_Some _ _ _ Lid). }
  rewrite !Hp.
  assert (∀ target k, (∀ k', e !! k' = None → target !! k' = None) →
            assign target e {[ "id" := VStr i; "parentNode" := parentNode ]} !! k = e !! k)
    as Hk.
  { intros target k Ht. unfold assign. rewrite !lookup_union.
    destruct (decide (k = "id")) as [->|Hid].
    { rewrite lookup_insert_eq, Lid. by destruct (target !! "id"). }
    rewrite lookup_insert_ne by done.
    destruct (decide (k = "parentNode")) as [->|Hpn].
    { rewrite lookup_singleton_eq, Lp. by destruct (target !! "parentNode"). }
    rewrite lookup_singleton_ne by done.
    destruct (e !! k) as [x|] eqn:Ek; [by destruct (target !! k)|].
    by rewrite (Ht k Ek). }
  split.
  - f_equal. apply map_eq. intros k. by apply Hk.
  - intros ->. f_equal. apply map_eq. intros k. apply Hk. intros k' Ek. simpl.
    rewrite <- He in Ek. unfold assign in Ek. simpl in Ek.
    rewrite !lookup_union_None in Ek. destruct Ek as (_ & _ & Ek).
    exact (parseNode_initialState_None _ _ _ _ _ Ek).
Qed.

(** A node given by a numeric identifier and a position, normalized
    twice. *)
Lemma parseNode_idempotent_witness :
  let raw : obj :=
    {[ "id" := VNum 7; "position" := VObj {[ "x" := VNum 1; "y" := VNum 2 ]} ]} in
  (e ← parseNode raw None (VStr "p"); parseNode e None (VStr "p"))
    = parseNode raw None (VStr "p")
  ∧ is_Some (parseNode raw None (VStr "p")).
Proof.
  intros raw.
  pose proof (parseNode_Some raw None (VStr "p") eq_refl) as E.
  destruct (parseNode_idempotent raw None (VStr "p") _ E) as [_ H].
  rewrite E. split; [exact (H eq_refl) | by eexists].
Defined.

End NormalizerFacts.

Section RegistryFacts.

Context {flow : Type}.

Implicit Types (st : Storage flow) (f : flow) (id : string).



(** X25: an instance registered under an identifier is found under it
    and [remove] of that identifier reports it and takes it out again,
    bringing back the storage as it was when the identifier was free;
    [remove] of a free identifier reports [false] and changes nothing;
    neither touches the instances under other identifiers. *)
Theorem storage_round_trip st id id' f :
  storage_get id (storage_set id f st) = Some f
  ∧ storage_get id (snd (storage_remove id st)) = None
  ∧ fst (storage_remove id (storage_set id f st)) = true
  ∧ (storage_get id st = None →
     fst (storage_remove id st) = false ∧ snd (storage_remove id st) = st
     ∧ snd (storage_remove id (storage_set id f st)) = st)
  ∧ (id ≠ id' →
     storage_get id' (storage_set id f st) = storage_get id' st
     ∧ storage_get id' (snd (storage_remove id st)) = storage_get id' st).
Proof.
  unfold storage_get, storage_set, storage_remove. simpl.
  split; [apply lookup_insert_eq|]. split; [apply lookup_delete_eq|].
  split; [rewrite lookup_insert_eq; by apply bool_decide_eq_true|]. split.
  - intros H. rewrite H. split; [by apply bool_decide_eq_false; intros [? ?]|].
    destruct st as [c fl]. simpl in *. split; f_equal.
    + by apply delete_id.
    + by rewrite delete_insert_eq, delete_id.
  - intros Hne. split; [by apply lookup_insert_ne | by apply lookup_delete_ne].
Qed.

End RegistryFacts.


(** One instance registered in a fresh storage and removed again. *)
Lemma storage_round_trip_witness :
  storage_remove "a" (storage_set "a" 1%nat (mkStorage 0 ∅)) = (true, mkStorage 0 ∅).
Proof.
  destruct (storage_round_trip (mkStorage 0 ∅) "a" "b" 1%nat) as (_ & _ & H1 & H2 & _).
  destruct H2 as (_ & _ & H2); [reflexivity|].
  rewrite (surjective_pairing (storage_remove _ _)), H1, H2. reflexivity.
Defined.
